(** * AccChecker: the renderer store, the report view and the IPC bridge

    A shallow embedding of the Electron/Vue front end of the web
    accessibility checker:

    - [stores/checker.ts]   the Pinia store ([Store] below),
    - [views/ReportView.vue] and [views/CheckerView.vue] ([Report], [Checker]),
    - the main-process IPC handler ([Main]),
    - the weight and penalty tables of the README ([Scoring]).

    JavaScript objects that are shared and updated in place (the [issues]
    array of a result, a caller's options object) live in an explicit heap;
    plain JSON data is modelled by value.  Scores and durations are
    rationals, counters are integers. *)

From Stdlib Require Import QArith Qminmax Qround Qabs Lqa Lia List Sorted Ascii.
From stdpp Require Import base option list gmap strings.

Local Open Scope string_scope.

(** ** JavaScript values and objects *)

Inductive JsValue :=
  | JUndefined
  | JNull
  | JBool (b : bool)
  | JNum (q : Q)
  | JStr (s : string).

(** A plain object: own enumerable properties by name. *)
Abbreviation JsObject := (gmap string JsValue).

(** Object spread [{ ...a, ...b }]: the properties of [b] win. *)
Definition spread (a b : JsObject) : JsObject := b ∪ a.

(** [new Error(message)]. *)
Definition new_Error (message : string) : JsObject :=
  {[ "message" := JStr message ]}.

(** Heap addresses of arrays and objects. *)
Abbreviation loc := positive.

(** ** Data model of [stores/checker.ts] *)

(** [severity: 'low' | 'medium' | 'high' | 'critical'] *)
Inductive Severity := low | medium | high | critical.

Definition Severity_name (s : Severity) : string :=
  match s with
  | low => "low"
  | medium => "medium"
  | high => "high"
  | critical => "critical"
  end.

Record AccessibilityIssue := {
  type : string;
  severity : Severity;
  message : string;
  description : string;
  element : option string;
  line_number : option Z;
  recommendation : string;
  wcag_reference : option string
}.

Record CategoryScore := {
  category : string;
  score : Q;
  max_score : Q;
  issues_count : Z;
  passed_checks : Z;
  total_checks : Z
}.

(** [interface CheckResult].  The record is parametrised by how the
    [issues] array is held: by reference ([loc]) inside the renderer, where
    the array can be reached through several names, and by value in JSON
    that crosses a process boundary. *)
Record CheckResultOf (I : Type) := MkCheckResult {
  url : string;
  total_score : Q;
  category_scores : gmap string CategoryScore;
  issues : I;
  summary : JsObject;
  checked_at : string;
  check_duration : Q
}.
Arguments MkCheckResult {I}.
Arguments url {I}.
Arguments total_score {I}.
Arguments category_scores {I}.
Arguments issues {I}.
Arguments summary {I}.
Arguments checked_at {I}.
Arguments check_duration {I}.

Abbreviation CheckResult := (CheckResultOf loc).
Abbreviation CheckResultJson := (CheckResultOf (list AccessibilityIssue)).

Definition with_issues {I J : Type} (r : CheckResultOf I) (i : J) : CheckResultOf J :=
  MkCheckResult (url r) (total_score r) (category_scores r) i
                (summary r) (checked_at r) (check_duration r).

(** [interface CheckOptions]: the property names, in declaration order. *)
Definition CheckOptions_keys : list string :=
  [ "enable_aria_check";
    "enable_semantic_check";
    "enable_image_check";
    "enable_media_check";
    "enable_visual_check";
    "include_screenshots";
    "wait_time" ].

(** ** The renderer's world: store, heap, and observable effects *)

Record Heap := {
  arrays : gmap loc (list AccessibilityIssue);
  objects : gmap loc JsObject
}.

(** State of [useCheckerStore]. *)
Record Store := {
  isChecking : bool;
  currentStep : string;
  progress : Z;
  checkResults : list CheckResult;
  currentResult : option CheckResult;
  defaultOptions : JsObject
}.

(** A call [ipcRenderer.invoke(channel, ...)] with its serialised payload. *)
Inductive IpcCall :=
  | InvokeCheck (channel : string) (url : string) (options : JsObject)
  | InvokeExport (channel : string) (result : CheckResultJson).

(** The callbacks [startCheck] hands to [setTimeout]: [resolve] of the
    promise a step of the progress loop awaits, and the reset of the progress
    indicators in the [finally] block. *)
Inductive Timer :=
  | ResolveSleep (delay : Z)
  | ResetChecking (delay : Z).

Record World := {
  store : Store;
  heap : Heap;
  ipc_log : list IpcCall;
  console : list (string * JsObject);
  timers : list Timer
}.

(** A completed computation returned a value or threw an error object. *)
Inductive Outcome (A : Type) :=
  | Returned (a : A)
  | Thrown (e : JsObject).
Arguments Returned {A}.
Arguments Thrown {A}.

Definition M (A : Type) : Type := World → Outcome A * World.

#[global] Instance M_ret : MRet M := λ A a w, (Returned a, w).
#[global] Instance M_bind : MBind M := λ A B k c w,
  match c w with
  | (Returned a, w') => k a w'
  | (Thrown e, w') => (Thrown e, w')
  end.

Definition throw {A} (e : JsObject) : M A := λ w, (Thrown e, w).

(** [try { body } catch (error) { handler }] *)
Definition try_catch {A} (body : M A) (handler : JsObject → M A) : M A := λ w,
  match body w with
  | (Returned a, w') => (Returned a, w')
  | (Thrown e, w') => handler e w'
  end.

(** [try { body } finally { final }] where [final] itself completes normally. *)
Definition try_finally {A} (body : M A) (final : World → World) : M A := λ w,
  let '(o, w') := body w in (o, final w').

Definition get_store : M Store := λ w, (Returned (store w), w).

Definition modify_store (f : Store → Store) : M unit := λ w,
  (Returned (), {| store := f (store w); heap := heap w; ipc_log := ipc_log w;
                   console := console w; timers := timers w |}).

Definition get_heap : M Heap := λ w, (Returned (heap w), w).

Definition put_heap (h : Heap) : M unit := λ w,
  (Returned (), {| store := store w; heap := h; ipc_log := ipc_log w;
                   console := console w; timers := timers w |}).

Definition log_ipc (c : IpcCall) : M unit := λ w,
  (Returned (), {| store := store w; heap := heap w; ipc_log := ipc_log w ++ [c];
                   console := console w; timers := timers w |}).

(** [console.error(label, error)] *)
Definition console_error (label : string) (error : JsObject) : M unit := λ w,
  (Returned (), {| store := store w; heap := heap w; ipc_log := ipc_log w;
                   console := console w ++ [(label, error)]; timers := timers w |}).

(** [setTimeout(callback, delay)] *)
Definition setTimeout (t : Timer) (w : World) : World :=
  {| store := store w; heap := heap w; ipc_log := ipc_log w;
     console := console w; timers := timers w ++ [t] |}.

(** [await new Promise(resolve => setTimeout(resolve, delay))]: the timer is
    registered and the caller goes on once it has run.  Other actions that
    run while the caller is suspended are not part of the caller's run. *)
Definition sleep (delay : Z) : M unit := λ w,
  (Returned (), setTimeout (ResolveSleep delay) w).

(** Field assignments [x.value = v] of the store. *)
Definition set_isChecking (v : bool) (s : Store) : Store :=
  {| isChecking := v; currentStep := currentStep s; progress := progress s;
     checkResults := checkResults s; currentResult := currentResult s;
     defaultOptions := defaultOptions s |}.
Definition set_currentStep (v : string) (s : Store) : Store :=
  {| isChecking := isChecking s; currentStep := v; progress := progress s;
     checkResults := checkResults s; currentResult := currentResult s;
     defaultOptions := defaultOptions s |}.
Definition set_progress (v : Z) (s : Store) : Store :=
  {| isChecking := isChecking s; currentStep := currentStep s; progress := v;
     checkResults := checkResults s; currentResult := currentResult s;
     defaultOptions := defaultOptions s |}.
Definition set_checkResults (v : list CheckResult) (s : Store) : Store :=
  {| isChecking := isChecking s; currentStep := currentStep s; progress := progress s;
     checkResults := v; currentResult := currentResult s;
     defaultOptions := defaultOptions s |}.
Definition set_currentResult (v : option CheckResult) (s : Store) : Store :=
  {| isChecking := isChecking s; currentStep := currentStep s; progress := progress s;
     checkResults := checkResults s; currentResult := v;
     defaultOptions := defaultOptions s |}.
Definition set_defaultOptions (v : JsObject) (s : Store) : Store :=
  {| isChecking := isChecking s; currentStep := currentStep s; progress := progress s;
     checkResults := checkResults s; currentResult := currentResult s;
     defaultOptions := v |}.

(** Heap primitives.  A new array or object gets an address that is not in
    use; reading an address that holds nothing yields the empty value. *)
Definition read_array (h : Heap) (l : loc) : list AccessibilityIssue :=
  default [] (arrays h !! l).

Definition read_object (h : Heap) (l : loc) : JsObject :=
  default ∅ (objects h !! l).

Definition alloc_array (xs : list AccessibilityIssue) : M loc := λ w,
  let l := fresh (dom (arrays (heap w))) in
  (Returned l,
   {| store := store w;
      heap := {| arrays := <[l := xs]> (arrays (heap w)); objects := objects (heap w) |};
      ipc_log := ipc_log w; console := console w; timers := timers w |}).

Definition alloc_object (o : JsObject) : M loc := λ w,
  let l := fresh (dom (objects (heap w))) in
  (Returned l,
   {| store := store w;
      heap := {| arrays := arrays (heap w); objects := <[l := o]> (objects (heap w)) |};
      ipc_log := ipc_log w; console := console w; timers := timers w |}).

Definition write_array (l : loc) (xs : list AccessibilityIssue) : M unit := λ w,
  (Returned (),
   {| store := store w;
      heap := {| arrays := <[l := xs]> (arrays (heap w)); objects := objects (heap w) |};
      ipc_log := ipc_log w; console := console w; timers := timers w |}).

(** Structured clone of a result when it is sent over IPC. *)
Definition serialize (h : Heap) (r : CheckResult) : CheckResultJson :=
  with_issues r (read_array h (issues r)).

(** ** [stores/checker.ts]: the store's getters and actions *)

Module Store.

(** Initial value of [defaultOptions]. *)
Definition initial_defaultOptions : JsObject :=
  list_to_map
    [ ("enable_aria_check", JBool true);
      ("enable_semantic_check", JBool true);
      ("enable_image_check", JBool true);
      ("enable_media_check", JBool true);
      ("enable_visual_check", JBool true);
      ("include_screenshots", JBool false);
      ("wait_time", JNum 5) ].

Definition initial : Store :=
  {| isChecking := false; currentStep := ""; progress := 0;
     checkResults := []; currentResult := None;
     defaultOptions := initial_defaultOptions |}.

(** Getters. *)
Definition hasResults (s : Store) : bool :=
  bool_decide (0 < length (checkResults s)).

Definition latestResult (s : Store) : option CheckResult :=
  if bool_decide (0 < length (checkResults s)) then checkResults s !! 0%nat else None.

(** [checkResults.value.unshift(result)], then keep at most ten. *)
Definition addResult (result : CheckResult) : M unit :=
  modify_store (λ s, set_checkResults (result :: checkResults s) s);;
  s ← get_store;
  if bool_decide (10 < length (checkResults s))
  then modify_store (set_checkResults (take 10 (checkResults s)))
  else mret ().

(** [checkResults.value.find(result => result.checked_at === id) || null] *)
Definition getResultById (id : string) : M (option CheckResult) :=
  s ← get_store;
  mret (List.find (λ result, String.eqb (checked_at result) id) (checkResults s)).

Definition clearResults : M unit :=
  modify_store (set_checkResults []);;
  modify_store (set_currentResult None).

(** [defaultOptions.value = { ...defaultOptions.value, ...options }] *)
Definition updateOptions (options : loc) : M unit :=
  s ← get_store;
  h ← get_heap;
  modify_store (set_defaultOptions (spread (defaultOptions s) (read_object h options))).

(** The progress messages of [startCheck]. *)
Definition steps : list (string * Z) :=
  [ ("페이지 로딩 중...", 10);
    ("HTML 구조 분석 중...", 20);
    ("ARIA 속성 검사 중...", 40);
    ("시멘틱 구조 검사 중...", 60);
    ("이미지 접근성 검사 중...", 80);
    ("결과 정리 중...", 95) ]%Z.

(** [for (const step of steps) { currentStep.value = step.message;
    progress.value = step.progress;
    await new Promise(resolve => setTimeout(resolve, 500)) }] *)
Fixpoint run_steps (ss : list (string * Z)) : M unit :=
  match ss with
  | [] => mret ()
  | step :: rest =>
      modify_store (set_currentStep (fst step));;
      modify_store (set_progress (snd step));;
      sleep 500;;
      run_steps rest
  end.

Section Actions.

(** What the main process answers on the check channel and on the export
    channels: the awaited promise resolves with a value or rejects. *)
Variable check_reply : string → JsObject → Outcome CheckResultJson.
Variable export_reply : string → CheckResultJson → Outcome unit.

(** [await ipcRenderer.invoke('check-accessibility', url, checkOptions)]:
    the options object is read and sent; the answer arrives as new objects. *)
Definition invoke_check (url : string) (checkOptions : loc) : M CheckResult :=
  h ← get_heap;
  log_ipc (InvokeCheck "check-accessibility" url (read_object h checkOptions));;
  match check_reply url (read_object h checkOptions) with
  | Returned data =>
      l ← alloc_array (issues data);
      mret (with_issues data l)
  | Thrown e => throw e
  end.

(** [await ipcRenderer.invoke(channel, result)] for an export channel. *)
Definition invoke_export (channel : string) (result : CheckResult) : M unit :=
  h ← get_heap;
  log_ipc (InvokeExport channel (serialize h result));;
  match export_reply channel (serialize h result) with
  | Returned _ => mret ()
  | Thrown e => throw e
  end.

(** [startCheck(url, options?)], for a run on its own: each [await] suspends
    the run, and no other store action is taken while it is suspended.  The
    [finally] block only registers a timer. *)
Definition startCheck (url : string) (options : option loc) : M CheckResult :=
  try_finally
    (try_catch
       (modify_store (set_isChecking true);;
        modify_store (set_progress 0);;
        modify_store (set_currentStep "검사 준비 중...");;
        s ← get_store;
        h ← get_heap;
        checkOptions ← alloc_object
          (spread (defaultOptions s) (from_option (read_object h) ∅ options));
        run_steps steps;;
        result ← invoke_check url checkOptions;
        modify_store (set_progress 100);;
        modify_store (set_currentStep "검사 완료!");;
        addResult result;;
        modify_store (set_currentResult (Some result));;
        mret result)
       (λ error,
          console_error "접근성 검사 실패:" error;;
          throw error))
    (setTimeout (ResetChecking 1000)).

(** The timer callback of [startCheck]. *)
Definition reset_checking (s : Store) : Store :=
  set_progress 0 (set_currentStep "" (set_isChecking false s)).

(** [exportResult(result, format)] *)
Definition exportResult (result : CheckResult) (format : string) : M unit :=
  try_catch
    (if String.eqb format "json" then invoke_export "export-json" result
     else if String.eqb format "html" then invoke_export "export-html" result
     else if String.eqb format "pdf" then invoke_export "export-pdf" result
     else throw (new_Error "지원하지 않는 내보내기 형식입니다."))
    (λ error,
       console_error "결과 내보내기 실패:" error;;
       throw error).

End Actions.

End Store.

(** ** JavaScript array methods used by the views *)

(** A string used as a condition: the empty string is falsy. *)
Definition truthy (s : string) : bool := negb (String.eqb s "").

(** [xs.filter(p)]: a new array. *)
Definition array_filter (p : AccessibilityIssue → bool) (xs : loc) : M loc :=
  h ← get_heap;
  alloc_array (List.filter p (read_array h xs)).

(** [xs.slice(0, n)]: a new array. *)
Definition array_slice0 (n : nat) (xs : loc) : M loc :=
  h ← get_heap;
  alloc_array (take n (read_array h xs)).

(** [Array.prototype.sort] is stable: an element moves in front of another
    only when the comparator ranks it strictly lower. *)
Fixpoint sort_insert {A} (compareFn : A → A → Z) (x : A) (sorted : list A) : list A :=
  match sorted with
  | [] => [x]
  | y :: rest =>
      if (0 <? compareFn x y)%Z
      then y :: sort_insert compareFn x rest
      else x :: y :: rest
  end.

Definition stable_sort {A} (compareFn : A → A → Z) (xs : list A) : list A :=
  foldr (sort_insert compareFn) [] xs.

(** [xs.sort(compareFn)]: sorts the array [xs] itself and returns it. *)
Definition array_sort (compareFn : AccessibilityIssue → AccessibilityIssue → Z)
    (xs : loc) : M loc :=
  h ← get_heap;
  write_array xs (stable_sort compareFn (read_array h xs));;
  mret xs.

(** ** What a view does besides changing the store *)

(** [alert(msg)] and [router.push(path)], in the order they happen. *)
Inductive UiEffect :=
  | Alert (msg : string)
  | RouterPush (path : string).

(** [String.prototype.toUpperCase] on the letters a to z; the views apply it
    to an export format only, after the export of that format succeeded. *)
Definition upper_ascii (c : ascii) : ascii :=
  let n := nat_of_ascii c in
  if ((97 <=? n) && (n <=? 122))%nat then ascii_of_nat (n - 32) else c.

Fixpoint toUpperCase (s : string) : string :=
  match s with
  | EmptyString => EmptyString
  | String c rest => String (upper_ascii c) (toUpperCase rest)
  end.

(** The names every object inherits from [Object.prototype]: looking one of
    them up on a plain object finds the inherited member, not [undefined]. *)
Definition Object_prototype_names : list string :=
  [ "constructor"; "__defineGetter__"; "__defineSetter__"; "hasOwnProperty";
    "__lookupGetter__"; "__lookupSetter__"; "isPrototypeOf";
    "propertyIsEnumerable"; "toString"; "valueOf"; "__proto__";
    "toLocaleString" ].

(** Running a timer registered by [setTimeout]: [resolve] wakes the awaiting
    run and leaves the store alone; the callback of the [finally] block resets
    the progress indicators of the store. *)
Definition fire (t : Timer) : M unit :=
  match t with
  | ResolveSleep _ => mret ()
  | ResetChecking _ =>
      modify_store (λ s, set_progress 0 (set_currentStep "" (set_isChecking false s)))
  end.

(** ** [views/ReportView.vue] *)

Module Report.

(** Component state and the [id] parameter of the route [/report/:id?]. *)
Record View := {
  selectedSeverity : string;
  selectedCategory : string;
  expandedIssues : gset nat;
  route_params_id : option string
}.

Definition currentResult (v : View) : M (option CheckResult) :=
  match route_params_id v with
  | Some id =>
      if truthy id then Store.getResultById id
      else s ← get_store; mret (currentResult s)
  | None => s ← get_store; mret (currentResult s)
  end.

(** [const severityOrder = { critical: 0, high: 1, medium: 2, low: 3 }] *)
Definition severityOrder (s : Severity) : Z :=
  match s with
  | critical => 0
  | high => 1
  | medium => 2
  | low => 3
  end.

Definition bySeverity (a b : AccessibilityIssue) : Z :=
  (severityOrder (severity a) - severityOrder (severity b))%Z.

Definition filteredIssues (v : View) : M loc :=
  r ← currentResult v;
  match r with
  | None => alloc_array []
  | Some result =>
      let issues0 := issues result in
      issues1 ←
        (if truthy (selectedSeverity v)
         then array_filter
                (λ issue, String.eqb (Severity_name (severity issue)) (selectedSeverity v))
                issues0
         else mret issues0);
      issues2 ←
        (if truthy (selectedCategory v)
         then array_filter (λ issue, String.eqb (type issue) (selectedCategory v)) issues1
         else mret issues1);
      array_sort bySeverity issues2
  end.

Definition is_priority (issue : AccessibilityIssue) : bool :=
  match severity issue with
  | critical | high => true
  | _ => false
  end.

Definition priorityIssues (v : View) : M loc :=
  r ← currentResult v;
  match r with
  | None => alloc_array []
  | Some result =>
      xs ← array_filter is_priority (issues result);
      array_slice0 5 xs
  end.

(** [counts[issue.type] = (counts[issue.type] || 0) + 1] for each issue,
    for issue types that are not names inherited from [Object.prototype]
    (looking up such a name finds the inherited member, not [undefined]). *)
Definition count_types (xs : list AccessibilityIssue) : gmap string nat :=
  foldl (λ counts issue, <[type issue := S (default 0%nat (counts !! type issue))]> counts)
        ∅ xs.

Definition issueCountByCategory (v : View) : M (gmap string nat) :=
  r ← currentResult v;
  match r with
  | None => mret ∅
  | Some result => h ← get_heap; mret (count_types (read_array h (issues result)))
  end.

Definition is_critical (issue : AccessibilityIssue) : bool :=
  match severity issue with
  | critical => true
  | _ => false
  end.

Definition getCriticalIssueCount (v : View) : M nat :=
  r ← currentResult v;
  match r with
  | None => mret 0%nat
  | Some result =>
      h ← get_heap;
      mret (length (List.filter is_critical (read_array h (issues result))))
  end.

Definition getScoreColor (score : Q) : string :=
  if Qle_bool 90 score then "text-green-600"
  else if Qle_bool 80 score then "text-blue-600"
  else if Qle_bool 70 score then "text-yellow-600"
  else if Qle_bool 60 score then "text-orange-600"
  else "text-red-600".


(** [expandedIssues.value.has(index) ? delete(index) : add(index)] *)
Definition toggleIssueDetails (index : nat) (v : View) : View :=
  {| selectedSeverity := selectedSeverity v;
     selectedCategory := selectedCategory v;
     expandedIssues :=
       if bool_decide (index ∈ expandedIssues v)
       then expandedIssues v ∖ {[ index ]}
       else expandedIssues v ∪ {[ index ]};
     route_params_id := route_params_id v |}.

(** [onMounted]: a route with an id that finds no result goes back to the
    start page. *)
Definition onMounted (v : View) : M (list UiEffect) :=
  match route_params_id v with
  | Some id =>
      if truthy id
      then r ← currentResult v;
           mret (match r with None => [RouterPush "/"] | Some _ => [] end)
      else mret []
  | None => mret []
  end.

Section ViewExport.

Variable export_reply : string → CheckResultJson → Outcome unit.

(** The view's [exportResult(format)]: returns the alerts it showed. *)
Definition exportResult (v : View) (format : string) : M (list UiEffect) :=
  r ← currentResult v;
  match r with
  | None => mret []
  | Some result =>
      try_catch
        (Store.exportResult export_reply result format;;
         mret [Alert (toUpperCase format +:+ " 파일로 내보내기가 완료되었습니다.")])
        (λ error, mret [Alert "내보내기 중 오류가 발생했습니다."])
  end.

End ViewExport.

End Report.

(** ** [views/CheckerView.vue] *)

Module Checker.

(** [checkerStore.currentResult = result;
    router.push(`/report/${result.checked_at}`)]: the path is the prefix
    followed by [checked_at] as it is, not escaped.  Which [id] the router
    takes from that path is the router's business: the report view reads it
    from [Report.route_params_id]. *)
Definition viewResult (result : CheckResult) : M (list UiEffect) :=
  modify_store (set_currentResult (Some result));;
  mret [RouterPush ("/report/" +:+ checked_at result)].

Definition getScoreColor (score : Q) : string :=
  if Qle_bool 90 score then "text-green-600"
  else if Qle_bool 80 score then "text-blue-600"
  else if Qle_bool 70 score then "text-yellow-600"
  else if Qle_bool 60 score then "text-orange-600"
  else "text-red-600".

Section Submit.

Variable check_reply : string → JsObject → Outcome CheckResultJson.

(** [handleSubmit] with the form's [url] and [options]: returns the
    navigation or the alert it ended with. *)
Definition handleSubmit (url : string) (options : loc) : M (list UiEffect) :=
  if negb (truthy url) then mret []
  else
    try_catch
      (Store.startCheck check_reply url (Some options);;
       mret [RouterPush "/report"])
      (λ error,
         console_error "검사 실패:" error;;
         mret [Alert "검사 중 오류가 발생했습니다. 다시 시도해주세요."]).

End Submit.

End Checker.

(** ** The main process: [ipcMain.handle('check-accessibility', ...)] *)

Module Main.

Section Handler.

(** The body of a successful answer ([response.data]) is passed on as is. *)
Variable Data : Type.

Record AxiosResponse := { status : Z; data : Data }.

(** What [axios.post] rejects with: an [Error] with a message, carrying the
    server's answer when there was one. *)
Record AxiosError := {
  message : string;
  response : option (Z * JsObject)
}.

Inductive AxiosOutcome :=
  | Resolved (r : AxiosResponse)
  | Rejected (error : AxiosError).

(** [axios.post('http://127.0.0.1:8000/check', { url, options })] *)
Variable axios_post : string → string → JsObject → AxiosOutcome.

Definition check_accessibility (url : string) (options : JsObject) : Outcome Data :=
  match axios_post "http://127.0.0.1:8000/check" url options with
  | Resolved response => Returned (data response)
  | Rejected error => Thrown (new_Error ("접근성 검사 실패: " +:+ message error))
  end.

End Handler.

Arguments status {Data}.
Arguments data {Data}.
Arguments Resolved {Data}.
Arguments Rejected {Data}.
Arguments check_accessibility {Data}.

End Main.

(** ** Scoring: the README's tables and the scoring engine *)

Module Scoring.

Local Open Scope Q_scope.

(** The six categories of the README's weight table. *)
Inductive Category := ARIA | Semantic | Image | Media | Visual | Keyboard.

Definition categories : list Category :=
  [ARIA; Semantic; Image; Media; Visual; Keyboard].

(** README, "카테고리별 가중치": 25%, 20%, 15%, 15%, 10%, 15%. *)
Definition default_weight (c : Category) : Q :=
  match c with
  | ARIA => 25 # 100
  | Semantic => 20 # 100
  | Image => 15 # 100
  | Media => 15 # 100
  | Visual => 10 # 100
  | Keyboard => 15 # 100
  end.

(** README, "심각도별 감점": the least and the greatest deduction. *)
Definition penalty_band (s : Severity) : Q * Q :=
  match s with
  | critical => (10, 20)
  | high => (5, 10)
  | medium => (2, 5)
  | low => (1, 2)
  end.

Definition in_band (s : Severity) (m : Q) : Prop :=
  fst (penalty_band s) <= m ∧ m <= snd (penalty_band s).

(** The property of [CheckOptions] that switches a category on or off;
    the interface has none for keyboard navigation. *)
Definition enable_flag (c : Category) : option string :=
  match c with
  | ARIA => Some "enable_aria_check"
  | Semantic => Some "enable_semantic_check"
  | Image => Some "enable_image_check"
  | Media => Some "enable_media_check"
  | Visual => Some "enable_visual_check"
  | Keyboard => None
  end.

(** The per-category switches among the properties of [CheckOptions]. *)
Definition enable_flags : list string :=
  List.filter (String.prefix "enable_") CheckOptions_keys.


Definition Qsum (xs : list Q) : Q := foldr Qplus 0 xs.

(** Modelled from the spec: the letter grades A, B, C, D and F of the
    ladder (section 4.3); the back end's type is not among the sources. *)
Inductive Grade := grade_A | grade_B | grade_C | grade_D | grade_F.

Section Engine.

(** Configuration: the weight of each category, and the magnitude a checker
    attaches to an issue when it does not leave it to the engine. *)
Variable weight : Category → Q.
Variable explicit_magnitude : AccessibilityIssue → option Q.

(** Modelled from the spec: the mid-point of a penalty band (section 4.3);
    the scoring engine of the Python back end is not among the sources. *)
Definition midpoint (band : Q * Q) : Q := (fst band + snd band) / 2.

(** Modelled from the spec: the penalty of one issue, "a deterministic
    mid-point value within each band unless a checker supplies an explicit
    magnitude" (section 4.3); the engine's code is missing. *)
Definition penalty (issue : AccessibilityIssue) : Q :=
  match explicit_magnitude issue with
  | Some m => m
  | None => midpoint (penalty_band (severity issue))
  end.

(** Modelled from the spec: the category score, "start at 100 and subtract
    a severity-scaled penalty per issue ... clamped at 0" (section 4.3);
    the engine's code is missing. *)
Definition category_score (found : list AccessibilityIssue) : Q :=
  Qmax 0 (foldl (λ s issue, s - penalty issue) 100 found).

(** Modelled from the spec: the enabled categories of a run, given the
    per-category enable flags (sections 3 and 4.3); the registry's code is
    missing. *)
Definition enabled_categories (enabled : Category → bool) : list Category :=
  List.filter enabled categories.

(** Modelled from the spec: "category weights across all enabled checkers
    ... (re-normalized when a category is disabled)" (section 3): each
    weight divided by the sum of the enabled weights; the code is missing. *)
Definition total_weight (enabled : Category → bool) : Q :=
  Qsum (weight <$> enabled_categories enabled).

(** Modelled from the spec: the normalized weight of a category, its
    weight over the total weight of the enabled ones (section 3); the
    registry's code is missing. *)
Definition normalized_weight (enabled : Category → bool) (c : Category) : Q :=
  weight c / total_weight enabled.

(** Modelled from the spec: "Σ(category_score × normalized_weight)" over the
    categories present in the result (section 4.3); the code is missing. *)
Definition weighted_sum (enabled : Category → bool) (scores : Category → Q) : Q :=
  Qsum ((λ c, scores c * normalized_weight enabled c) <$> enabled_categories enabled).

(** Modelled from the spec: rounding to one decimal (section 4.3), here to
    the nearest tenth with halves going up; the code is missing. *)
Definition round1 (x : Q) : Q := inject_Z (Qfloor (x * 10 + (1 # 2))) / 10.

(** Modelled from the spec: "clamped to [0,100]" (section 3); the code is
    missing. *)
Definition clamp (lo hi x : Q) : Q := Qmax lo (Qmin hi x).

(** Modelled from the spec: "total_score is always the weighted sum of
    present CategoryScores rounded to one decimal and clamped to [0,100]"
    (section 3); the code is missing. *)
Definition total_score (enabled : Category → bool) (scores : Category → Q) : Q :=
  clamp 0 100 (round1 (weighted_sum enabled scores)).

(** Modelled from the spec: the grade ladder read from a table of
    thresholds, highest first (section 4.3); the code is missing. *)
Fixpoint grade (table : list (Q * Grade)) (score : Q) : Grade :=
  match table with
  | [] => grade_F
  | (threshold, g) :: rest =>
      if Qle_bool threshold score then g else grade rest score
  end.

(** Modelled from the spec: [score(issuesByCategory, weights)] yields the
    category scores, the total and the grade (section 4.3); the code is
    missing. *)
Definition score (table : list (Q * Grade)) (enabled : Category → bool)
    (issuesByCategory : Category → list AccessibilityIssue)
    : (Category → Q) * Q * Grade :=
  let scores := λ c, category_score (issuesByCategory c) in
  let total := total_score enabled scores in
  (scores, total, grade table total).

End Engine.

(** Modelled from the spec: "≥90 A, ≥80 B, ≥70 C, ≥60 D, else F"
    (section 4.3) as the default threshold table; the configuration of the
    back end is not among the sources. *)
Definition default_grade_table : list (Q * Grade) :=
  [(90, grade_A); (80, grade_B); (70, grade_C); (60, grade_D)].



End Scoring.

(** ** Export formats *)

(** The channel [exportResult] uses for each format it knows. *)
Definition export_channels : list (string * string) :=
  [("json", "export-json"); ("html", "export-html"); ("pdf", "export-pdf")].

(** ** Sample data *)

Definition sample_issue (s : Severity) (msg : string) : AccessibilityIssue :=
  {| type := "image"; severity := s; message := msg; description := "";
     element := None; line_number := None; recommendation := "";
     wcag_reference := None |}.

Definition sample_result (at_ : string) (l : loc) : CheckResult :=
  MkCheckResult "https://example.com" 80 ∅ l ∅ at_ 3.

Definition empty_world : World :=
  {| store := Store.initial; heap := {| arrays := ∅; objects := ∅ |};
     ipc_log := []; console := []; timers := [] |}.

Definition two_issues : list AccessibilityIssue :=
  [sample_issue low "link text is vague"; sample_issue critical "image without alt"].

(** A store holding one result, which is also the current one; its issues
    array sits at address 1. *)
Definition report_world : World :=
  {| store := set_currentResult (Some (sample_result "t0" 1%positive))
                (set_checkResults [sample_result "t0" 1%positive] Store.initial);
     heap := {| arrays := {[ 1%positive := two_issues ]}; objects := ∅ |};
     ipc_log := []; console := []; timers := [] |}.

(** The report view as first shown: no filter chosen, no [id] in the route. *)
Definition unfiltered_view : Report.View :=
  {| Report.selectedSeverity := ""; Report.selectedCategory := "";
     Report.expandedIssues := ∅; Report.route_params_id := None |}.

(** ** Error objects *)

(** Modelled from the spec: the codes of the service's error objects,
    "invalid_url | render_timeout | navigation_error | internal_error"
    (section 6); the service's code is not among the sources. *)
Definition stable_codes : list string :=
  ["invalid_url"; "render_timeout"; "navigation_error"; "internal_error"].

(** Modelled from the spec: an error object [{code, message}] with one of
    the stable codes (section 6); the service's code is missing. *)
Definition structured_error (e : JsObject) : Prop :=
  ∃ code msg, e !! "code" = Some (JStr code) ∧ code ∈ stable_codes ∧
              e !! "message" = Some (JStr msg).

Definition error_body (code msg : string) : JsObject :=
  {[ "code" := JStr code; "message" := JStr msg ]}.

(** The service answers 400 with an [invalid_url] error object; axios
    rejects with its usual message for an error status. *)
Definition rejecting_post (endpoint url : string) (options : JsObject)
    : Main.AxiosOutcome CheckResultJson :=
  Main.Rejected
    {| Main.message := "Request failed with status code 400";
       Main.response := Some (400%Z, error_body "invalid_url" "unsupported scheme") |}.

(** A caller's options object at address 1: media checks off, a longer wait. *)
Definition caller_options : JsObject :=
  {[ "enable_media_check" := JBool false; "wait_time" := JNum 10 ]}.

Definition caller_world : World :=
  {| store := Store.initial;
     heap := {| arrays := ∅; objects := {[ 1%positive := caller_options ]} |};
     ipc_log := []; console := []; timers := [] |}.

(** A main process on which every check fails. *)
Definition failing_check (url : string) (options : JsObject) : Outcome CheckResultJson :=
  Thrown (new_Error "Error invoking remote method").

(** ** Reasoning about runs *)

(** Running [c] from [w] ends in an outcome and a world satisfying [Q]. *)
Definition wp {A} (c : M A) (w : World) (Q : Outcome A → World → Prop) : Prop :=
  Q (c w).1 (c w).2.

(** The store after the progress messages [ss] were shown in turn. *)
Definition apply_steps (ss : list (string * Z)) (s : Store) : Store :=
  foldl (λ s step, set_progress (snd step) (set_currentStep (fst step) s)) s ss.

(** The answer of a main process on which every check succeeds with the
    same report. *)
Definition sample_json : CheckResultJson :=
  MkCheckResult "https://example.com" 80 ∅ two_issues ∅ "t1" 3.

Definition succeeding_check (url : string) (options : JsObject)
    : Outcome CheckResultJson :=
  Returned sample_json.

(** An issue passes the filters chosen in the report view. *)
Definition passes_filters (v : Report.View) (issue : AccessibilityIssue) : bool :=
  (negb (truthy (Report.selectedSeverity v))
   || String.eqb (Severity_name (severity issue)) (Report.selectedSeverity v))
  && (negb (truthy (Report.selectedCategory v))
      || String.eqb (type issue) (Report.selectedCategory v)).

(** [addResult] called for each result of [rs] in turn. *)
Definition add_all (rs : list CheckResult) (w : World) : World :=
  foldl (λ w r, (Store.addResult r w).2) w rs.

(** The export channel of a format, if [exportResult] knows the format. *)
Definition export_channel (format : string) : option string :=
  snd <$> List.find (λ fc, String.eqb (fst fc) format) export_channels.

(** A report route with an id. *)
Definition view_by_id (id : string) : Report.View :=
  {| Report.selectedSeverity := ""; Report.selectedCategory := "";
     Report.expandedIssues := ∅; Report.route_params_id := Some id |}.

(** The ways the views and the timer change the world: submitting the
    form, opening one of the five results listed on the start page,
    rendering the report (the two computed lists), exporting, and a timer
    of [startCheck] running. *)
Inductive ui_step : World → World → Prop :=
  | ui_submit check_reply url options w :
      ui_step w (Checker.handleSubmit check_reply url options w).2
  | ui_view result w :
      result ∈ take 5 (checkResults (store w)) →
      ui_step w (Checker.viewResult result w).2
  | ui_filtered v w : ui_step w (Report.filteredIssues v w).2
  | ui_priority v w : ui_step w (Report.priorityIssues v w).2
  | ui_export export_reply v format w :
      ui_step w (Report.exportResult export_reply v format w).2
  | ui_timer t w : ui_step w (fire t w).2.

(** The worlds the application can be in, starting from the empty store. *)
Definition reachable (w : World) : Prop := rtc ui_step empty_world w.

(** What the store keeps true of its results. *)
Definition well_kept (w : World) : Prop :=
  (length (checkResults (store w)) ≤ 10)%nat ∧
  (∀ r, r ∈ checkResults (store w) → issues r ∈ dom (arrays (heap w))) ∧
  NoDup (issues <$> checkResults (store w)) ∧
  (∀ r, currentResult (store w) = Some r → r ∈ checkResults (store w)).

(** The world after two successful checks from the empty store. *)
Definition two_checks_world : World :=
  (Checker.handleSubmit succeeding_check "https://example.org" 1%positive
     (Checker.handleSubmit succeeding_check "https://example.com" 1%positive
        empty_world).2).2.

(** A comparator that subtracts sort keys, as [bySeverity] does. *)
Definition by_key {A} (key : A → Z) (a b : A) : Z := (key a - key b)%Z.

(** * Properties *)

Example enable_flags_computed :
  Scoring.enable_flags =
  ["enable_aria_check"; "enable_semantic_check"; "enable_image_check";
   "enable_media_check"; "enable_visual_check"].
Proof. reflexivity. Qed.

Example total_score_example :
  (Scoring.total_score Scoring.default_weight (λ _, true) (λ _, 80) == 80)%Q.
Proof. vm_compute. reflexivity. Qed.

(** ** Stepping through a run

    [wp c w Q]: running [c] from [w] ends in an outcome and a world that
    satisfy [Q]. *)

Lemma wp_bind {A B} (c : M A) (k : A → M B) (w : World)
    (Q : Outcome B → World → Prop) :
  wp c w (λ o w1, match o with
                  | Returned a => wp (k a) w1 Q
                  | Thrown e => Q (Thrown e) w1
                  end) →
  wp (c ≫= k) w Q.
Proof.
  unfold wp, mbind, M_bind. destruct (c w) as [[a|e] w1]; cbn [fst snd]; auto.
Qed.

Lemma wp_try_catch {A} (body : M A) (handler : JsObject → M A) (w : World)
    (Q : Outcome A → World → Prop) :
  wp body w (λ o w1, match o with
                     | Returned a => Q (Returned a) w1
                     | Thrown e => wp (handler e) w1 Q
                     end) →
  wp (try_catch body handler) w Q.
Proof.
  unfold wp, try_catch. destruct (body w) as [[a|e] w1]; cbn [fst snd]; auto.
Qed.

Lemma wp_try_finally {A} (body : M A) (final : World → World) (w : World)
    (Q : Outcome A → World → Prop) :
  wp body w (λ o w1, Q o (final w1)) → wp (try_finally body final) w Q.
Proof.
  unfold wp, try_finally. destruct (body w) as [o w1]; cbn [fst snd]; auto.
Qed.

Lemma run_steps_eq (ss : list (string * Z)) (w : World) :
  Store.run_steps ss w
  = (Returned (),
     {| store := apply_steps ss (store w); heap := heap w; ipc_log := ipc_log w;
        console := console w;
        timers := (timers w ++ ((λ _, ResolveSleep 500) <$> ss))%list |}).
Proof.
  revert w. induction ss as [|step rest IH]; intros w.
  - cbn [fmap list_fmap]. rewrite app_nil_r. by destruct w.
  - cbn [Store.run_steps]. unfold mbind, M_bind, modify_store at 1 2.
    unfold sleep, setTimeout. rewrite IH.
    cbn [store heap ipc_log console timers fmap list_fmap].
    by rewrite <- app_assoc.
Qed.

Lemma addResult_eq (result : CheckResult) (w : World) :
  Store.addResult result w
  = (Returned (),
     {| store := set_checkResults (take 10 (result :: checkResults (store w))) (store w);
        heap := heap w; ipc_log := ipc_log w;
        console := console w; timers := timers w |}).
Proof.
  unfold Store.addResult, mbind, M_bind, modify_store, get_store, mret, M_ret.
  cbn [fst snd store heap ipc_log console timers checkResults set_checkResults].
  case_bool_decide as Hlen; cbn [length] in Hlen.
  - reflexivity.
  - rewrite take_ge by (cbn [length]; lia). reflexivity.
Qed.

Lemma wp_eval {A} (c : M A) (w : World) (Q : Outcome A → World → Prop)
    (o : Outcome A) (w1 : World) :
  c w = (o, w1) → Q o w1 → wp c w Q.
Proof. unfold wp. intros ->. auto. Qed.

(** One step of a run: split a composite action, or evaluate a primitive. *)
Ltac wp_step :=
  lazymatch goal with
  | |- wp (_ ≫= _) _ _ => apply wp_bind
  | |- wp (try_catch _ _) _ _ => apply wp_try_catch
  | |- wp (try_finally _ _) _ _ => apply wp_try_finally
  | |- wp (modify_store _) _ _ => eapply wp_eval; [unfold modify_store; reflexivity|]
  | |- wp get_store _ _ => eapply wp_eval; [unfold get_store; reflexivity|]
  | |- wp get_heap _ _ => eapply wp_eval; [unfold get_heap; reflexivity|]
  | |- wp (log_ipc _) _ _ => eapply wp_eval; [unfold log_ipc; reflexivity|]
  | |- wp (console_error _ _) _ _ => eapply wp_eval; [unfold console_error; reflexivity|]
  | |- wp (alloc_array _) _ _ => eapply wp_eval; [unfold alloc_array; reflexivity|]
  | |- wp (alloc_object _) _ _ => eapply wp_eval; [unfold alloc_object; reflexivity|]
  | |- wp (write_array _ _) _ _ => eapply wp_eval; [unfold write_array; reflexivity|]
  | |- wp (throw _) _ _ => eapply wp_eval; [unfold throw; reflexivity|]
  | |- wp (mret _) _ _ => eapply wp_eval; [unfold mret, M_ret; reflexivity|]
  | |- wp (Store.run_steps _) _ _ => eapply wp_eval; [apply run_steps_eq|]
  | |- wp (Store.addResult _) _ _ => eapply wp_eval; [apply addResult_eq|]
  end;
  cbn [fst snd store heap objects arrays ipc_log console timers].

Lemma read_object_alloc (a : gmap loc (list AccessibilityIssue))
    (m : gmap loc JsObject) (l : loc) (o : JsObject) :
  read_object {| arrays := a; objects := <[l := o]> m |} l = o.
Proof. unfold read_object. cbn [objects]. by rewrite lookup_insert_eq. Qed.

Lemma apply_steps_defaultOptions (ss : list (string * Z)) (s : Store) :
  defaultOptions (apply_steps ss s) = defaultOptions s.
Proof.
  revert s. induction ss as [|step rest IH]; intros s; [reflexivity|].
  unfold apply_steps in *. cbn [foldl]. by rewrite IH.
Qed.

Ltac wp_finish :=
  unfold setTimeout;
  cbn [store heap objects arrays ipc_log console timers defaultOptions
       set_isChecking set_currentStep set_progress set_checkResults
       set_currentResult set_defaultOptions];
  rewrite ?apply_steps_defaultOptions;
  cbn [defaultOptions set_isChecking set_currentStep set_progress].

(** ** The result history *)

Lemma latestResult_head (s : Store) :
  Store.latestResult s = head (checkResults s).
Proof.
  unfold Store.latestResult.
  destruct (checkResults s) as [|r rs]; case_bool_decide as Hlen;
    cbn [length] in Hlen; try reflexivity; lia.
Qed.

(** C9.  The history is bounded and newest-first: after [addResult result]
    the store holds the first ten entries of [result :: old history], so at
    most ten results, with [result] at index 0; [latestResult] is the head
    of the history, hence [result] after the call and [null] on the empty
    history.  The call returns normally and touches nothing else. *)
Theorem addResult_bounded_newest_first (w : World) (result : CheckResult) :
  let w' := (Store.addResult result w).2 in
  (Store.addResult result w).1 = Returned () ∧
  checkResults (store w') = take 10 (result :: checkResults (store w)) ∧
  (length (checkResults (store w')) ≤ 10)%nat ∧
  checkResults (store w') !! 0%nat = Some result ∧
  Store.latestResult (store w') = Some result ∧
  (∀ s, Store.latestResult s = head (checkResults s)) ∧
  Store.latestResult Store.initial = None ∧
  heap w' = heap w ∧ ipc_log w' = ipc_log w.
Proof.
  intros w'. subst w'. rewrite addResult_eq. cbn [fst snd store heap ipc_log].
  cbn [checkResults set_checkResults].
  split_and!.
  - reflexivity.
  - reflexivity.
  - rewrite length_take. lia.
  - reflexivity.
  - apply latestResult_head.
  - apply latestResult_head.
  - reflexivity.
  - reflexivity.
  - reflexivity.
Qed.

(** ** Lookup by [checked_at] *)

Lemma find_first {A} (p : A → bool) (xs : list A) :
  match List.find p xs with
  | Some x =>
      ∃ i : nat, xs !! i = Some x ∧ p x = true ∧
        ∀ (j : nat) y, (j < i)%nat → xs !! j = Some y → p y = false
  | None => ∀ y, y ∈ xs → p y = false
  end.
Proof.
  induction xs as [|x xs IH]; simpl.
  - intros y Hy. inversion Hy.
  - destruct (p x) eqn:Hpx.
    + exists 0%nat. split_and!; [reflexivity|exact Hpx|]. intros j y Hj. lia.
    + destruct (List.find p xs) as [z|].
      * destruct IH as (i & Hi & Hpz & Hbefore).
        exists (S i). split_and!; [exact Hi|exact Hpz|].
        intros [|j] y Hj Hy; simpl in Hy.
        -- congruence.
        -- apply (Hbefore j); [lia|exact Hy].
      * intros y Hy. apply elem_of_cons in Hy as [->|Hy]; [exact Hpx|auto].
Qed.

(** C10.  [getResultById id] never throws and leaves the whole world (the
    history included) as it was.  It returns the first stored result whose
    [checked_at] equals [id]: a result at some index [i] with that
    timestamp such that no earlier entry has it; and it returns [null]
    exactly when no stored result has that timestamp. *)
Theorem getResultById_first_match (w : World) (id : string) :
  (Store.getResultById id w).2 = w ∧
  ∃ found : option CheckResult,
    (Store.getResultById id w).1 = Returned found ∧
    match found with
    | Some r =>
        ∃ i : nat, checkResults (store w) !! i = Some r ∧ checked_at r = id ∧
          ∀ (j : nat) r', (j < i)%nat → checkResults (store w) !! j = Some r' →
                          checked_at r' ≠ id
    | None => ∀ r, r ∈ checkResults (store w) → checked_at r ≠ id
    end.
Proof.
  split; [reflexivity|].
  eexists. split; [reflexivity|].
  pose proof (find_first (λ result : CheckResult, String.eqb (checked_at result) id)
                (checkResults (store w))) as Hfind.
  destruct (List.find _ _) as [r|].
  - destruct Hfind as (i & Hi & Hp & Hbefore).
    exists i. split_and!; [exact Hi|by apply String.eqb_eq|].
    intros j r' Hj Hr'. apply String.eqb_neq. by apply (Hbefore j).
  - intros r Hr. apply String.eqb_neq. by apply Hfind.
Qed.

(** ** Export *)

Lemma invoke_export_run (export_reply : string → CheckResultJson → Outcome unit)
    (channel : string) (result : CheckResult) (w : World) :
  Store.invoke_export export_reply channel result w
  = (export_reply channel (serialize (heap w) result),
     (log_ipc (InvokeExport channel (serialize (heap w) result)) w).2).
Proof.
  unfold Store.invoke_export, mbind, M_bind, get_heap, log_ipc, mret, M_ret, throw.
  cbn [fst snd heap].
  destruct (export_reply channel (serialize (heap w) result)) as [[]|e]; reflexivity.
Qed.

(** C8.  [exportResult] knows exactly the formats json, html and pdf.  For
    each of them it makes one IPC call, on the channel of that format, whose
    payload is the result as it stands in the heap, and it completes as that
    call does.  For every other format string it throws the "unsupported
    format" error and makes no IPC call.  In all cases the store and the
    heap (hence the result) are left as they were. *)
Theorem exportResult_dispatch
    (export_reply : string → CheckResultJson → Outcome unit)
    (w : World) (result : CheckResult) (format : string) :
  let run := Store.exportResult export_reply result format w in
  store run.2 = store w ∧ heap run.2 = heap w ∧
  (∀ channel, (format, channel) ∈ export_channels →
     ipc_log run.2
       = (ipc_log w ++ [InvokeExport channel (serialize (heap w) result)])%list ∧
     run.1 = export_reply channel (serialize (heap w) result)) ∧
  (format ∉ ["json"; "html"; "pdf"] →
     run.1 = Thrown (new_Error "지원하지 않는 내보내기 형식입니다.") ∧
     ipc_log run.2 = ipc_log w).
Proof.
  intros run. subst run. unfold Store.exportResult, try_catch.
  destruct (String.eqb_spec format "json") as [->|Hjson];
    [|destruct (String.eqb_spec format "html") as [->|Hhtml];
      [|destruct (String.eqb_spec format "pdf") as [->|Hpdf]]].
  1-3: rewrite invoke_export_run;
    destruct (export_reply _ (serialize (heap w) result)) as [[]|e] eqn:Hreply;
    (split_and!;
     [reflexivity|reflexivity|
      intros channel Hin; unfold export_channels in Hin;
      rewrite !elem_of_cons, elem_of_nil in Hin;
      destruct Hin as [Hin|[Hin|[Hin|[]]]]; inversion Hin; subst;
      (split; [reflexivity|]); rewrite Hreply; reflexivity
     |intros Hnot; exfalso; apply Hnot; set_solver]).
  split_and!; [reflexivity|reflexivity| |].
  - intros channel Hin. unfold export_channels in Hin.
    rewrite !elem_of_cons, elem_of_nil in Hin.
    destruct Hin as [Hin|[Hin|[Hin|[]]]]; inversion Hin; congruence.
  - intros _. split; reflexivity.
Qed.

Lemma exportResult_dispatch_witness :
  let run := Store.exportResult (λ _ _, Returned ()) (sample_result "t0" 1%positive)
               "xml" empty_world in
  run.1 = Thrown (new_Error "지원하지 않는 내보내기 형식입니다.") ∧
  ipc_log run.2 = [].
Proof.
  apply (exportResult_dispatch (λ _ _, Returned ()) empty_world
           (sample_result "t0" 1%positive) "xml").
  rewrite !elem_of_cons, elem_of_nil.
  intros [H|[H|[H|[]]]]; discriminate H.
Defined.

(** ** The model of [Array.prototype.sort]

    For a comparator that subtracts keys, [stable_sort] returns the
    elements it was given, in ascending key order, and keeps elements of
    equal key in their original order. *)

Section StableSort.

Context {A : Type} (key : A → Z).

Lemma sort_insert_perm (x : A) (xs : list A) :
  sort_insert (by_key key) x xs ≡ₚ x :: xs.
Proof.
  induction xs as [|y xs IH]; cbn [sort_insert]; [reflexivity|].
  destruct (0 <? by_key key x y)%Z; [|reflexivity].
  rewrite IH. apply Permutation_swap.
Qed.

Lemma stable_sort_perm (xs : list A) : stable_sort (by_key key) xs ≡ₚ xs.
Proof.
  induction xs as [|x xs IH]; cbn [stable_sort foldr]; [reflexivity|].
  fold (stable_sort (by_key key) xs). rewrite sort_insert_perm. by rewrite IH.
Qed.

Lemma sort_insert_sorted (x : A) (xs : list A) :
  StronglySorted (λ a b, (key a ≤ key b)%Z) xs →
  StronglySorted (λ a b, (key a ≤ key b)%Z) (sort_insert (by_key key) x xs).
Proof.
  induction 1 as [|y xs Hsorted IH Hy]; cbn [sort_insert].
  - repeat constructor.
  - destruct (Z.ltb_spec 0 (by_key key x y)) as [Hcmp|Hcmp]; unfold by_key in Hcmp.
    + constructor; [exact IH|].
      rewrite sort_insert_perm. constructor; [lia|exact Hy].
    + constructor; [by constructor|].
      constructor; [lia|]. eapply Forall_impl; [exact Hy|]. intros z Hz. cbn in Hz. lia.
Qed.

Lemma stable_sort_sorted (xs : list A) :
  StronglySorted (λ a b, (key a ≤ key b)%Z) (stable_sort (by_key key) xs).
Proof.
  induction xs as [|x xs IH]; cbn [stable_sort foldr]; [constructor|].
  by apply sort_insert_sorted.
Qed.

Lemma sort_insert_stable (k : Z) (x : A) (xs : list A) :
  List.filter (λ a, key a =? k)%Z (sort_insert (by_key key) x xs)
  = List.filter (λ a, key a =? k)%Z (x :: xs).
Proof.
  induction xs as [|y xs IH]; cbn [sort_insert]; [reflexivity|].
  destruct (Z.ltb_spec 0 (by_key key x y)) as [Hlt|Hge]; [|reflexivity].
  unfold by_key in Hlt. cbn [List.filter] in *. rewrite IH.
  destruct (Z.eqb_spec (key x) k) as [Hx|Hx]; [|reflexivity].
  destruct (Z.eqb_spec (key y) k) as [Hy|Hy]; [lia|reflexivity].
Qed.

Lemma stable_sort_stable (k : Z) (xs : list A) :
  List.filter (λ a, key a =? k)%Z (stable_sort (by_key key) xs)
  = List.filter (λ a, key a =? k)%Z xs.
Proof.
  induction xs as [|x xs IH]; cbn [stable_sort foldr]; [reflexivity|].
  fold (stable_sort (by_key key) xs). rewrite sort_insert_stable.
  cbn [List.filter]. by rewrite IH.
Qed.

End StableSort.

Lemma bySeverity_by_key :
  Report.bySeverity = by_key (λ issue, Report.severityOrder (severity issue)).
Proof. reflexivity. Qed.

(** ** The report view and the stored result *)

(** C2.  Showing the report with no filter chosen reorders the issues of
    the stored result: [filteredIssues] sorts the result's own array.  The
    result held two issues, low then critical; after the view computed its
    list the same result, still in the history and still current, reads
    back as critical then low. *)
Theorem filteredIssues_reorders_stored_result :
  let r := sample_result "t0" 1%positive in
  let w' := (Report.filteredIssues unfiltered_view report_world).2 in
  checkResults (store report_world) = [r] ∧
  checkResults (store w') = [r] ∧
  currentResult (store w') = Some r ∧
  issues (serialize (heap report_world) r)
    = [sample_issue low "link text is vague"; sample_issue critical "image without alt"] ∧
  issues (serialize (heap w') r)
    = [sample_issue critical "image without alt"; sample_issue low "link text is vague"] ∧
  serialize (heap w') r ≠ serialize (heap report_world) r.
Proof.
  cbv zeta. split_and!; try reflexivity.
  intros Heq. apply (f_equal issues) in Heq. vm_compute in Heq. discriminate Heq.
Qed.

Lemma currentResult_run (v : Report.View) (w : World) :
  ∃ r, Report.currentResult v w = (Returned r, w).
Proof.
  unfold Report.currentResult.
  destruct (Report.route_params_id v) as [id|]; [destruct (truthy id)|];
    eexists; reflexivity.
Qed.

(** With no filter chosen, [filteredIssues] sorts the array of the current
    result where it stands. *)
Lemma filteredIssues_unfiltered_sorts (v : Report.View) (w : World)
    (result : CheckResult) :
  Report.selectedSeverity v = "" → Report.selectedCategory v = "" →
  Report.currentResult v w = (Returned (Some result), w) →
  Report.filteredIssues v w
  = (Returned (issues result),
     (write_array (issues result)
        (stable_sort Report.bySeverity (read_array (heap w) (issues result))) w).2).
Proof.
  intros Hsev Hcat Hcur. unfold Report.filteredIssues, mbind, M_bind.
  rewrite Hcur, Hsev, Hcat. reflexivity.
Qed.

Lemma alloc_array_run (xs : list AccessibilityIssue) (w : World) :
  ∃ l w', alloc_array xs w = (Returned l, w') ∧
    (l ∉ dom (arrays (heap w))) ∧
    arrays (heap w') = <[l := xs]> (arrays (heap w)) ∧
    store w' = store w.
Proof.
  eexists _, _. split; [reflexivity|]. split_and!; [apply is_fresh|reflexivity..].
Qed.

Lemma array_filter_run (p : AccessibilityIssue → bool) (xs : loc) (w : World) :
  ∃ l w', array_filter p xs w = (Returned l, w') ∧
    (l ∉ dom (arrays (heap w))) ∧
    arrays (heap w') = <[l := (List.filter p (read_array (heap w) xs))]> (arrays (heap w)) ∧
    store w' = store w.
Proof.
  unfold array_filter, mbind, M_bind, get_heap.
  apply alloc_array_run.
Qed.

Lemma array_sort_run (f : AccessibilityIssue → AccessibilityIssue → Z) (xs : loc)
    (w : World) :
  ∃ w', array_sort f xs w = (Returned xs, w') ∧
    arrays (heap w') = <[xs := (stable_sort f (read_array (heap w) xs))]> (arrays (heap w)) ∧
    store w' = store w.
Proof. eexists. split; [reflexivity|]. split; reflexivity. Qed.

Lemma dom_arrays_insert (h : gmap loc (list AccessibilityIssue)) (l l' : loc)
    (xs : list AccessibilityIssue) :
  l ∈ dom h → l ∈ dom (<[l' := xs]> h).
Proof. rewrite dom_insert. set_solver. Qed.

(** With a filter chosen, [filteredIssues] sorts a copy: every array that
    existed before, the stored results' arrays among them, is unchanged. *)
Lemma filteredIssues_filtered_keeps (v : Report.View) (w : World) (l : loc) :
  truthy (Report.selectedSeverity v) || truthy (Report.selectedCategory v) = true →
  l ∈ dom (arrays (heap w)) →
  arrays (heap (Report.filteredIssues v w).2) !! l = arrays (heap w) !! l.
Proof.
  intros Hfilter Hl. unfold Report.filteredIssues, mbind, M_bind.
  destruct (currentResult_run v w) as [r ->].
  destruct r as [result|].
  2: { destruct (alloc_array_run [] w) as (l' & w' & -> & Hfresh & Ha & _).
       cbn [snd]. rewrite Ha. apply lookup_insert_ne. congruence. }
  destruct (truthy (Report.selectedSeverity v)) eqn:Hsev.
  - destruct (array_filter_run
                (λ issue, String.eqb (Severity_name (severity issue))
                                     (Report.selectedSeverity v))
                (issues result) w) as (l1 & w1 & -> & Hf1 & Ha1 & _).
    assert (Hl1 : l ∈ dom (arrays (heap w1))).
    { rewrite Ha1. by apply dom_arrays_insert. }
    destruct (truthy (Report.selectedCategory v)).
    + destruct (array_filter_run
                  (λ issue, String.eqb (type issue) (Report.selectedCategory v))
                  l1 w1) as (l2 & w2 & -> & Hf2 & Ha2 & _).
      destruct (array_sort_run Report.bySeverity l2 w2) as (w3 & -> & Ha3 & _).
      cbn [snd]. rewrite Ha3, Ha2, Ha1.
      rewrite !lookup_insert_ne; [reflexivity|congruence..].
    + destruct (array_sort_run Report.bySeverity l1 w1) as (w3 & Hrun & Ha3 & _).
      unfold mret, M_ret. rewrite Hrun. cbn [snd]. rewrite Ha3, Ha1.
      rewrite !lookup_insert_ne; [reflexivity|congruence..].
  - cbn [orb] in Hfilter. rewrite Hfilter. unfold mret at 1, M_ret at 1.
    destruct (array_filter_run
                (λ issue, String.eqb (type issue) (Report.selectedCategory v))
                (issues result) w) as (l2 & w2 & -> & Hf2 & Ha2 & _).
    destruct (array_sort_run Report.bySeverity l2 w2) as (w3 & -> & Ha3 & _).
    cbn [snd]. rewrite Ha3, Ha2.
    rewrite !lookup_insert_ne; [reflexivity|congruence..].
Qed.

(** [priorityIssues] works on copies only. *)
Lemma priorityIssues_keeps (v : Report.View) (w : World) (l : loc) :
  l ∈ dom (arrays (heap w)) →
  arrays (heap (Report.priorityIssues v w).2) !! l = arrays (heap w) !! l.
Proof.
  intros Hl. unfold Report.priorityIssues, mbind, M_bind.
  destruct (currentResult_run v w) as [r ->].
  destruct r as [result|].
  2: { destruct (alloc_array_run [] w) as (l' & w' & -> & Hfresh & Ha & _).
       cbn [snd]. rewrite Ha. apply lookup_insert_ne. congruence. }
  destruct (array_filter_run Report.is_priority (issues result) w)
    as (l1 & w1 & -> & Hf1 & Ha1 & _).
  unfold array_slice0, mbind, M_bind, get_heap.
  assert (l ∈ dom (arrays (heap w1))) by (rewrite Ha1; by apply dom_arrays_insert).
  destruct (alloc_array_run (take 5 (read_array (heap w1) l1)) w1)
    as (l2 & w2 & -> & Hf2 & Ha2 & _).
  cbn [snd]. rewrite Ha2, Ha1.
  rewrite !lookup_insert_ne; [reflexivity|congruence..].
Qed.

(** ** Failures of a check request *)

Lemma new_Error_code (msg : string) : new_Error msg !! "code" = None.
Proof. unfold new_Error. by rewrite lookup_singleton_ne. Qed.

Lemma new_Error_unstructured (msg : string) : ¬ structured_error (new_Error msg).
Proof. intros (code & m & Hcode & _). rewrite new_Error_code in Hcode. discriminate. Qed.

(** C7, as stated, fails: when the service answers with the error object
    [{code: invalid_url, ...}], the handler surfaces an [Error] that has a
    message only; the code is gone. *)
Lemma check_accessibility_drops_code :
  Main.check_accessibility rejecting_post "ftp://example.com" Store.initial_defaultOptions
    = Thrown (new_Error "접근성 검사 실패: Request failed with status code 400") ∧
  ¬ structured_error (new_Error "접근성 검사 실패: Request failed with status code 400").
Proof. split; [reflexivity|apply new_Error_unstructured]. Qed.

(** C7, amended.  A successful request returns the body of the answer.  A
    failed request surfaces as a plain [Error]: its message is the fixed
    prefix followed by the message of the underlying failure, and it has no
    [code] property, so it is never a structured [{code, message}] error. *)
Theorem check_accessibility_outcome {Data : Type}
    (axios_post : string → string → JsObject → Main.AxiosOutcome Data)
    (url : string) (options : JsObject) :
  (∀ response, axios_post "http://127.0.0.1:8000/check" url options = Main.Resolved response →
     Main.check_accessibility axios_post url options = Returned (Main.data response)) ∧
  (∀ error, axios_post "http://127.0.0.1:8000/check" url options = Main.Rejected error →
     Main.check_accessibility axios_post url options
       = Thrown (new_Error ("접근성 검사 실패: " +:+ Main.message error))) ∧
  (∀ e, Main.check_accessibility axios_post url options = Thrown e →
     e !! "code" = None ∧ ¬ structured_error e ∧
     ∃ cause, e !! "message" = Some (JStr ("접근성 검사 실패: " +:+ cause))).
Proof.
  unfold Main.check_accessibility. split_and!.
  - intros response ->. reflexivity.
  - intros error ->. reflexivity.
  - intros e He.
    destruct (axios_post _ url options) as [response|error]; [discriminate He|].
    injection He as <-.
    split_and!; [apply new_Error_code|apply new_Error_unstructured|].
    exists (Main.message error). unfold new_Error. by rewrite lookup_singleton_eq.
Qed.

Lemma check_accessibility_outcome_witness :
  new_Error "접근성 검사 실패: Request failed with status code 400" !! "code" = None ∧
  ¬ structured_error (new_Error "접근성 검사 실패: Request failed with status code 400") ∧
  ∃ cause, new_Error "접근성 검사 실패: Request failed with status code 400" !! "message"
           = Some (JStr ("접근성 검사 실패: " +:+ cause)).
Proof.
  apply (check_accessibility_outcome rejecting_post "ftp://example.com"
           Store.initial_defaultOptions).
  reflexivity.
Defined.

(** ** Score bands *)




(** ** Check options *)

(** C6, as stated, fails: [CheckOptions] has five per-category switches,
    so the six categories cannot each have a switch of their own. *)
Lemma no_enable_flag_per_category :
  length Scoring.enable_flags = 5%nat ∧
  ¬ ∃ flag : Scoring.Category → string,
      (∀ c1 c2, flag c1 = flag c2 → c1 = c2) ∧
      (∀ c, flag c ∈ Scoring.enable_flags).
Proof.
  split; [reflexivity|].
  intros (flag & Hinj & Hflags).
  assert (Hnodup : NoDup (flag <$> Scoring.categories)).
  { apply NoDup_fmap_2; [intros c1 c2; apply Hinj|].
    unfold Scoring.categories.
    repeat (constructor;
      [intros Hin;
       repeat (apply elem_of_cons in Hin as [Hin|Hin]; [discriminate Hin|]);
       inversion Hin|]).
    constructor. }
  assert (Hsub : flag <$> Scoring.categories ⊆ Scoring.enable_flags).
  { intros k Hk. apply list_elem_of_fmap in Hk as (c & -> & _). apply Hflags. }
  pose proof (submseteq_length _ _ (NoDup_submseteq _ _ Hnodup Hsub)) as Hlen.
  rewrite length_fmap in Hlen. cbn in Hlen. lia.
Qed.

Lemma startCheck_run
    (check_reply : string → JsObject → Outcome CheckResultJson)
    (url : string) (options : option loc) (w : World) :
  let sent := spread (defaultOptions (store w))
                     (from_option (read_object (heap w)) ∅ options) in
  let w' := (Store.startCheck check_reply url options w).2 in
  objects (heap w') = <[fresh (dom (objects (heap w))) := sent]> (objects (heap w)) ∧
  ipc_log w' = (ipc_log w ++ [InvokeCheck "check-accessibility" url sent])%list ∧
  defaultOptions (store w') = defaultOptions (store w).
Proof.
  intros sent. change (wp (Store.startCheck check_reply url options) w (λ _ w',
    objects (heap w') = <[fresh (dom (objects (heap w))) := sent]> (objects (heap w)) ∧
    ipc_log w' = (ipc_log w ++ [InvokeCheck "check-accessibility" url sent])%list ∧
    defaultOptions (store w') = defaultOptions (store w))).
  unfold Store.startCheck.
  repeat wp_step.
  unfold Store.invoke_check. do 2 wp_step.
  rewrite !read_object_alloc.
  cbn [defaultOptions set_currentStep set_progress set_isChecking].
  fold sent. do 2 wp_step.
  destruct (check_reply url sent) as [data|e].
  - repeat wp_step. wp_finish. by split_and!.
  - repeat wp_step. wp_finish. by split_and!.
Qed.

Lemma initial_defaultOptions_keys :
  dom Store.initial_defaultOptions = list_to_set CheckOptions_keys.
Proof. unfold Store.initial_defaultOptions. rewrite dom_list_to_map_L. reflexivity. Qed.

(** C6, amended.  [CheckOptions] consists of five per-category switches,
    for ARIA, semantic structure, images, media and visual checks, and of
    [include_screenshots] and [wait_time]; keyboard navigation has no switch.
    The store never writes to a caller's options object: [startCheck] reads
    it and merges it over the defaults into a new object, which is what it
    sends, and [updateOptions] merges it into a new value of the defaults;
    the caller's object is the same afterwards. *)
Theorem checkOptions_shape_and_read_only
    (check_reply : string → JsObject → Outcome CheckResultJson)
    (url : string) (l : loc) (w : World) :
  CheckOptions_keys = (Scoring.enable_flags ++ ["include_screenshots"; "wait_time"])%list ∧
  omap Scoring.enable_flag Scoring.categories = Scoring.enable_flags ∧
  Scoring.enable_flag Scoring.Keyboard = None ∧
  dom Store.initial_defaultOptions = list_to_set CheckOptions_keys ∧
  (is_Some (objects (heap w) !! l) →
   let sent := spread (defaultOptions (store w)) (read_object (heap w) l) in
   let w' := (Store.startCheck check_reply url (Some l) w).2 in
   objects (heap w') !! l = objects (heap w) !! l ∧
   (∃ l', l' ≠ l ∧ (l' ∉ dom (objects (heap w))) ∧
          objects (heap w') = <[l' := sent]> (objects (heap w))) ∧
   ipc_log w' = (ipc_log w ++ [InvokeCheck "check-accessibility" url sent])%list ∧
   heap (Store.updateOptions l w).2 = heap w ∧
   defaultOptions (store (Store.updateOptions l w).2) = sent).
Proof.
  split_and!; [reflexivity|reflexivity|reflexivity|apply initial_defaultOptions_keys|].
  intros Hl sent w'.
  destruct (startCheck_run check_reply url (Some l) w) as (Hobj & Hlog & _).
  cbn [from_option] in Hobj, Hlog. fold sent w' in Hobj, Hlog.
  assert (Hfresh : fresh (dom (objects (heap w))) ∉ dom (objects (heap w)))
    by apply is_fresh.
  assert (Hne : fresh (dom (objects (heap w))) ≠ l).
  { intros Heq. rewrite Heq in Hfresh. apply Hfresh. by apply elem_of_dom. }
  split_and!.
  - rewrite Hobj. by apply lookup_insert_ne.
  - exists (fresh (dom (objects (heap w)))). by split_and!.
  - exact Hlog.
  - reflexivity.
  - reflexivity.
Qed.

Lemma checkOptions_shape_and_read_only_witness :
  let w' := (Store.startCheck failing_check "https://example.com" (Some 1%positive)
               caller_world).2 in
  objects (heap w') !! 1%positive = Some caller_options.
Proof.
  intros w'.
  destruct (checkOptions_shape_and_read_only failing_check "https://example.com"
              1%positive caller_world) as (_ & _ & _ & _ & H).
  destruct H as (Hkeep & _); [by eexists|].
  exact Hkeep.
Defined.

(** ** Scoring *)

Section QsumFacts.

Local Open Scope Q_scope.

Context {A : Type}.

Lemma Qsum_scale (f : A → Q) (k : Q) (xs : list A) :
  Scoring.Qsum ((λ x, f x * k) <$> xs) == Scoring.Qsum (f <$> xs) * k.
Proof.
  induction xs as [|x xs IH]; cbn [fmap list_fmap Scoring.Qsum foldr].
  - ring.
  - unfold Scoring.Qsum in IH. rewrite IH. ring.
Qed.

Lemma Qsum_scale_l (f : A → Q) (k : Q) (xs : list A) :
  Scoring.Qsum ((λ x, k * f x) <$> xs) == k * Scoring.Qsum (f <$> xs).
Proof.
  induction xs as [|x xs IH]; cbn [fmap list_fmap Scoring.Qsum foldr].
  - ring.
  - unfold Scoring.Qsum in IH. rewrite IH. ring.
Qed.

Lemma Qsum_le (f g : A → Q) (xs : list A) :
  (∀ x, f x <= g x) → Scoring.Qsum (f <$> xs) <= Scoring.Qsum (g <$> xs).
Proof.
  intros Hfg. induction xs as [|x xs IH]; cbn [fmap list_fmap Scoring.Qsum foldr].
  - apply Qle_refl.
  - apply Qplus_le_compat; [apply Hfg|exact IH].
Qed.

Lemma Qsum_nonneg (f : A → Q) (xs : list A) :
  (∀ x, 0 <= f x) → 0 <= Scoring.Qsum (f <$> xs).
Proof.
  intros Hf. induction xs as [|x xs IH]; cbn [fmap list_fmap Scoring.Qsum foldr].
  - apply Qle_refl.
  - specialize (Hf x). unfold Scoring.Qsum in IH. lra.
Qed.

Lemma Qsum_pos (f : A → Q) (xs : list A) :
  (∀ x, 0 < f x) → xs ≠ [] → 0 < Scoring.Qsum (f <$> xs).
Proof.
  intros Hf Hne. destruct xs as [|x xs]; [done|].
  cbn [fmap list_fmap Scoring.Qsum foldr].
  pose proof (Qsum_nonneg f xs (λ y, Qlt_le_weak _ _ (Hf y))) as Hrest.
  specialize (Hf x). unfold Scoring.Qsum in Hrest. lra.
Qed.

End QsumFacts.

Section ScoringFacts.

Local Open Scope Q_scope.

Variable weight : Scoring.Category → Q.
Variable explicit_magnitude : AccessibilityIssue → option Q.

Hypothesis weight_pos : ∀ c, 0 < weight c.
Hypothesis magnitude_in_band :
  ∀ issue m, explicit_magnitude issue = Some m → Scoring.in_band (severity issue) m.

Lemma penalty_in_band (issue : AccessibilityIssue) :
  Scoring.in_band (severity issue) (Scoring.penalty explicit_magnitude issue).
Proof.
  unfold Scoring.penalty.
  destruct (explicit_magnitude issue) as [m|] eqn:Hm; [by apply magnitude_in_band|].
  unfold Scoring.in_band, Scoring.midpoint.
  destruct (severity issue); split; apply Qle_bool_iff; reflexivity.
Qed.

Lemma penalty_pos (issue : AccessibilityIssue) :
  0 < Scoring.penalty explicit_magnitude issue.
Proof.
  destruct (penalty_in_band issue) as [Hlo _]. revert Hlo.
  destruct (severity issue); cbn [Scoring.penalty_band fst]; lra.
Qed.

Lemma subtract_penalties (start : Q) (found : list AccessibilityIssue) :
  foldl (λ s issue, s - Scoring.penalty explicit_magnitude issue) start found
  == start - Scoring.Qsum (Scoring.penalty explicit_magnitude <$> found).
Proof.
  revert start. induction found as [|issue found IH]; intros start;
    cbn [foldl fmap list_fmap Scoring.Qsum foldr].
  - ring.
  - rewrite IH. unfold Scoring.Qsum. ring.
Qed.

Lemma category_score_range (found : list AccessibilityIssue) :
  0 <= Scoring.category_score explicit_magnitude found <= 100.
Proof.
  unfold Scoring.category_score. split; [apply Q.le_max_l|].
  apply Q.max_lub; [lra|].
  rewrite subtract_penalties.
  pose proof (Qsum_nonneg (Scoring.penalty explicit_magnitude) found
                (λ i, Qlt_le_weak _ _ (penalty_pos i))) as Hsum.
  lra.
Qed.

Lemma total_weight_pos (enabled : Scoring.Category → bool) :
  Scoring.enabled_categories enabled ≠ [] → 0 < Scoring.total_weight weight enabled.
Proof. intros Hne. unfold Scoring.total_weight. by apply Qsum_pos. Qed.

Lemma normalized_weights_sum_1 (enabled : Scoring.Category → bool) :
  Scoring.enabled_categories enabled ≠ [] →
  Scoring.Qsum (Scoring.normalized_weight weight enabled
                  <$> Scoring.enabled_categories enabled) == 1.
Proof.
  intros Hne. pose proof (total_weight_pos enabled Hne) as Hpos.
  unfold Scoring.normalized_weight, Qdiv.
  rewrite (Qsum_scale weight (/ Scoring.total_weight weight enabled)).
  fold (Scoring.total_weight weight enabled).
  apply Qmult_inv_r. lra.
Qed.

Lemma normalized_weight_nonneg (enabled : Scoring.Category → bool) (c : Scoring.Category) :
  0 <= Scoring.normalized_weight weight enabled c.
Proof.
  unfold Scoring.normalized_weight.
  destruct (decide (Scoring.enabled_categories enabled = [])) as [Hnil|Hne].
  - unfold Scoring.total_weight, Qdiv. rewrite Hnil.
    change (0 <= weight c * 0). lra.
  - apply Qle_shift_div_l; [by apply total_weight_pos|].
    specialize (weight_pos c). lra.
Qed.

Lemma weighted_sum_range (enabled : Scoring.Category → bool) (scores : Scoring.Category → Q) :
  (∀ c, 0 <= scores c <= 100) →
  0 <= Scoring.weighted_sum weight enabled scores <= 100.
Proof.
  intros Hs. unfold Scoring.weighted_sum. split.
  - apply Qsum_nonneg. intros c.
    apply Qmult_le_0_compat; [apply Hs|apply normalized_weight_nonneg].
  - destruct (decide (Scoring.enabled_categories enabled = [])) as [Hnil|Hne].
    { rewrite Hnil. cbn. lra. }
    apply Qle_trans with
      (Scoring.Qsum ((λ c, 100 * Scoring.normalized_weight weight enabled c)
                       <$> Scoring.enabled_categories enabled)).
    + apply Qsum_le. intros c.
      apply Qmult_le_compat_r; [apply Hs|apply normalized_weight_nonneg].
    + rewrite (Qsum_scale_l (Scoring.normalized_weight weight enabled) 100).
      rewrite normalized_weights_sum_1 by exact Hne. lra.
Qed.

End ScoringFacts.

Section Rounding.

Local Open Scope Q_scope.

Lemma round1_tenths (x : Q) : Scoring.round1 x == Qfloor (x * 10 + (1 # 2)) # 10.
Proof. unfold Scoring.round1. rewrite (Qmake_Qdiv _ 10). reflexivity. Qed.

Lemma round1_near (x : Q) : Qabs (Scoring.round1 x - x) <= 1 # 20.
Proof.
  unfold Scoring.round1.
  pose proof (Qfloor_le (x * 10 + (1 # 2))) as Hlo.
  pose proof (Qlt_floor (x * 10 + (1 # 2))) as Hhi.
  rewrite inject_Z_plus in Hhi. change (inject_Z 1) with 1 in Hhi.
  set (n := inject_Z (Qfloor (x * 10 + (1 # 2)))) in *.
  apply Qabs_Qle_condition. unfold Qdiv.
  change (/ 10) with (1 # 10). split; lra.
Qed.

Lemma round1_range (x : Q) : 0 <= x <= 100 → 0 <= Scoring.round1 x <= 100.
Proof.
  intros [Hlo Hhi]. rewrite round1_tenths.
  assert (H0 : (0 <= Qfloor (x * 10 + (1 # 2)))%Z).
  { change 0%Z with (Qfloor 0). apply Qfloor_resp_le. lra. }
  assert (H1 : (Qfloor (x * 10 + (1 # 2)) <= 1000)%Z).
  { change 1000%Z with (Qfloor (1000 + (1 # 2))). apply Qfloor_resp_le. lra. }
  unfold Qle. cbn [Qnum Qden]. lia.
Qed.

Lemma clamp_inside (lo hi x : Q) : lo <= x <= hi → Scoring.clamp lo hi x == x.
Proof.
  intros [Hlo Hhi]. unfold Scoring.clamp.
  rewrite (Q.min_r hi x) by exact Hhi. by apply Q.max_r.
Qed.

End Rounding.





(** C4.  The category score starts at 100 and loses one penalty per issue:
    between 10 and 20 for a critical issue, 5 and 10 for a high one, 2 and 5
    for a medium one and 1 and 2 for a low one (the mid-point of the band,
    or the checker's own magnitude, which lies in the band).  The result is
    clamped at 0, so the score is the larger of 0 and 100 minus the sum of
    the penalties, lies in [0,100], and never rises when an issue is added. *)
Theorem category_score_clamped
    (explicit_magnitude : AccessibilityIssue → option Q)
    (found : list AccessibilityIssue)
    (Hband : ∀ issue m, explicit_magnitude issue = Some m →
                        Scoring.in_band (severity issue) m) :
  let penalty := Scoring.penalty explicit_magnitude in
  let s := Scoring.category_score explicit_magnitude found in
  (∀ issue,
     match severity issue with
     | critical => 10 <= penalty issue ∧ penalty issue <= 20
     | high => 5 <= penalty issue ∧ penalty issue <= 10
     | medium => 2 <= penalty issue ∧ penalty issue <= 5
     | low => 1 <= penalty issue ∧ penalty issue <= 2
     end)%Q ∧
  (s == Qmax 0 (100 - Scoring.Qsum (penalty <$> found)))%Q ∧
  (0 <= s)%Q ∧ (s <= 100)%Q ∧
  (∀ issue,
     Scoring.category_score explicit_magnitude (found ++ [issue]) <= s)%Q.
Proof.
  intros penalty s. subst penalty s. split_and!.
  - intros issue. pose proof (penalty_in_band explicit_magnitude Hband issue) as Hin.
    unfold Scoring.in_band in Hin.
    destruct (severity issue); cbn [Scoring.penalty_band fst snd] in Hin; exact Hin.
  - unfold Scoring.category_score.
    apply Q.max_compat; [reflexivity|apply subtract_penalties].
  - apply (category_score_range explicit_magnitude Hband).
  - apply (category_score_range explicit_magnitude Hband).
  - intros issue. unfold Scoring.category_score. rewrite foldl_app. cbn [foldl].
    apply Q.max_le_compat_l.
    pose proof (penalty_pos explicit_magnitude Hband issue). lra.
Qed.

Lemma category_score_clamped_witness :
  (Scoring.category_score (λ _, None)
     [sample_issue critical "image without alt"; sample_issue low "link text is vague"]
   <= 100)%Q.
Proof.
  refine (proj1 (proj2 (proj2 (proj2
    (category_score_clamped (λ _, None)
       [sample_issue critical "image without alt";
        sample_issue low "link text is vague"] _))))).
  intros issue m H. discriminate H.
Defined.

(** C1.  The total score of a run is the weighted sum of the scores of the
    enabled categories, with the weights normalized over those categories,
    rounded to one decimal place: it is a whole number of tenths, within
    half a tenth of the weighted sum, and the clamp to [0,100] never has to
    act, so the total lies in [0,100]. *)
Theorem total_score_rounded_in_range
    (weight : Scoring.Category → Q)
    (explicit_magnitude : AccessibilityIssue → option Q)
    (table : list (Q * Scoring.Grade))
    (enabled : Scoring.Category → bool)
    (issuesByCategory : Scoring.Category → list AccessibilityIssue)
    (Hpos : ∀ c, (0 < weight c)%Q)
    (Hband : ∀ issue m, explicit_magnitude issue = Some m →
                        Scoring.in_band (severity issue) m) :
  let scores := λ c, Scoring.category_score explicit_magnitude (issuesByCategory c) in
  let exact := Scoring.weighted_sum weight enabled scores in
  let total := (Scoring.score weight explicit_magnitude table enabled issuesByCategory).1.2 in
  (0 <= total)%Q ∧ (total <= 100)%Q ∧
  (total == Scoring.round1 exact)%Q ∧
  (total == Qfloor (exact * 10 + (1 # 2)) # 10)%Q ∧
  (Qabs (total - exact) <= 1 # 20)%Q.
Proof.
  intros scores exact total.
  assert (Hexact : (0 <= exact <= 100)%Q).
  { apply weighted_sum_range; [exact Hpos|].
    intros c. apply (category_score_range explicit_magnitude Hband). }
  pose proof (round1_range exact Hexact) as Hround.
  assert (Htotal : (total == Scoring.round1 exact)%Q).
  { subst total. cbn [Scoring.score fst snd]. unfold Scoring.total_score.
    by apply clamp_inside. }
  split_and!.
  - rewrite Htotal. apply Hround.
  - rewrite Htotal. apply Hround.
  - exact Htotal.
  - rewrite Htotal. apply round1_tenths.
  - rewrite Htotal. apply round1_near.
Qed.

Lemma total_score_rounded_in_range_witness :
  ((Scoring.score Scoring.default_weight (λ _, None) Scoring.default_grade_table
      (λ _, true)
      (λ c, match c with
            | Scoring.Image => [sample_issue critical "image without alt"]
            | _ => []
            end)).1.2 <= 100)%Q.
Proof.
  refine (proj1 (proj2
    (total_score_rounded_in_range Scoring.default_weight (λ _, None)
       Scoring.default_grade_table (λ _, true)
       (λ c, match c with
             | Scoring.Image => [sample_issue critical "image without alt"]
             | _ => []
             end) _ _))).
  - intros c. destruct c; reflexivity.
  - intros issue m H. discriminate H.
Defined.

Example total_score_one_critical_image_issue :
  ((Scoring.score Scoring.default_weight (λ _, None) Scoring.default_grade_table
      (λ _, true)
      (λ c, match c with
            | Scoring.Image => [sample_issue critical "image without alt"]
            | _ => []
            end)).1.2 == 978 # 10)%Q.
Proof. vm_compute. reflexivity. Qed.

(** * Further properties of the store and the views *)

(** ** A check from start to finish *)

Lemma apply_steps_fields (ss : list (string * Z)) (s : Store) :
  isChecking (apply_steps ss s) = isChecking s ∧
  checkResults (apply_steps ss s) = checkResults s ∧
  currentResult (apply_steps ss s) = currentResult s.
Proof.
  revert s. induction ss as [|step rest IH]; intros s; [by split_and!|].
  unfold apply_steps in *. cbn [foldl].
  destruct (IH (set_progress step.2 (set_currentStep step.1 s))) as (H1 & H2 & H3).
  by split_and!.
Qed.

Lemma apply_steps_last (ss : list (string * Z)) (step : string * Z) (s : Store) :
  currentStep (apply_steps (ss ++ [step]) s) = step.1 ∧
  progress (apply_steps (ss ++ [step]) s) = step.2.
Proof. unfold apply_steps. rewrite foldl_app. by split. Qed.

(** The last progress message shown before the request is sent. *)
Lemma apply_steps_steps (s : Store) :
  currentStep (apply_steps Store.steps s) = "결과 정리 중..." ∧
  progress (apply_steps Store.steps s) = 95%Z.
Proof.
  apply (apply_steps_last
           [("페이지 로딩 중...", 10%Z); ("HTML 구조 분석 중...", 20%Z);
            ("ARIA 속성 검사 중...", 40%Z); ("시멘틱 구조 검사 중...", 60%Z);
            ("이미지 접근성 검사 중...", 80%Z)]
           ("결과 정리 중...", 95%Z) s).
Qed.

Ltac store_fields :=
  unfold setTimeout;
  cbn [store heap objects arrays ipc_log console timers
       isChecking currentStep progress checkResults currentResult defaultOptions
       set_isChecking set_currentStep set_progress set_checkResults
       set_currentResult set_defaultOptions].

Lemma startCheck_returned
    (check_reply : string → JsObject → Outcome CheckResultJson)
    (url : string) (options : option loc) (w : World) (data : CheckResultJson) :
  check_reply url (spread (defaultOptions (store w))
                          (from_option (read_object (heap w)) ∅ options))
    = Returned data →
  wp (Store.startCheck check_reply url options) w (λ o w',
    let result := with_issues data (fresh (dom (arrays (heap w)))) in
    o = Returned result ∧
    isChecking (store w') = true ∧
    progress (store w') = 100%Z ∧
    currentStep (store w') = "검사 완료!" ∧
    checkResults (store w') = take 10 (result :: checkResults (store w)) ∧
    currentResult (store w') = Some result ∧
    arrays (heap w') = <[fresh (dom (arrays (heap w))) := issues data]> (arrays (heap w)) ∧
    console w' = console w ∧
    timers w' = (timers w ++ replicate 6 (ResolveSleep 500)
                 ++ [ResetChecking 1000])%list).
Proof.
  intros Hreply. unfold Store.startCheck.
  repeat wp_step.
  unfold Store.invoke_check. do 2 wp_step.
  rewrite !read_object_alloc.
  cbn [defaultOptions set_currentStep set_progress set_isChecking].
  do 2 wp_step. rewrite Hreply.
  repeat wp_step. store_fields.
  destruct (apply_steps_fields Store.steps
              (set_currentStep "검사 준비 중..."
                 (set_progress 0 (set_isChecking true (store w)))))
    as (His & Hcr & _).
  rewrite His, Hcr. store_fields.
  split_and!; first [done | by rewrite <- app_assoc].
Qed.

Lemma startCheck_thrown
    (check_reply : string → JsObject → Outcome CheckResultJson)
    (url : string) (options : option loc) (w : World) (e : JsObject) :
  check_reply url (spread (defaultOptions (store w))
                          (from_option (read_object (heap w)) ∅ options))
    = Thrown e →
  wp (Store.startCheck check_reply url options) w (λ o w',
    o = Thrown e ∧
    isChecking (store w') = true ∧
    progress (store w') = 95%Z ∧
    currentStep (store w') = "결과 정리 중..." ∧
    checkResults (store w') = checkResults (store w) ∧
    currentResult (store w') = currentResult (store w) ∧
    arrays (heap w') = arrays (heap w) ∧
    console w' = (console w ++ [("접근성 검사 실패:", e)])%list ∧
    timers w' = (timers w ++ replicate 6 (ResolveSleep 500)
                 ++ [ResetChecking 1000])%list).
Proof.
  intros Hreply. unfold Store.startCheck.
  repeat wp_step.
  unfold Store.invoke_check. do 2 wp_step.
  rewrite !read_object_alloc.
  cbn [defaultOptions set_currentStep set_progress set_isChecking].
  do 2 wp_step. rewrite Hreply.
  repeat wp_step. store_fields.
  destruct (apply_steps_fields Store.steps
              (set_currentStep "검사 준비 중..."
                 (set_progress 0 (set_isChecking true (store w)))))
    as (His & Hcr & Hcur).
  destruct (apply_steps_steps
              (set_currentStep "검사 준비 중..."
                 (set_progress 0 (set_isChecking true (store w)))))
    as (Hstep & Hprog).
  rewrite His, Hcr, Hcur, Hstep, Hprog. store_fields.
  split_and!; first [done | by rewrite <- app_assoc].
Qed.

Lemma with_issues_round_trip (data : CheckResultJson) (l : loc) :
  with_issues (with_issues data l) (issues data) = data.
Proof. by destruct data. Qed.

Lemma read_array_insert (a : gmap loc (list AccessibilityIssue))
    (m : gmap loc JsObject) (l : loc) (xs : list AccessibilityIssue) :
  read_array {| arrays := <[l := xs]> a; objects := m |} l = xs.
Proof. unfold read_array. cbn [arrays]. by rewrite lookup_insert_eq. Qed.

(** X1.  When the main process answers with a report, [startCheck] returns
    it as a new result: the result's issues sit in a new array, so that the
    result reads back as exactly the report received and no array that
    existed before is touched; the result is put at the head of the history
    (cut to ten), becomes the current and the latest result, and progress
    stands at 100 with the "done" message. *)
Theorem startCheck_success
    (check_reply : string → JsObject → Outcome CheckResultJson)
    (url : string) (options : option loc) (w : World) (data : CheckResultJson)
    (Hreply : check_reply url (spread (defaultOptions (store w))
                                 (from_option (read_object (heap w)) ∅ options))
              = Returned data) :
  let run := Store.startCheck check_reply url options w in
  ∃ result : CheckResult,
    run.1 = Returned result ∧
    serialize (heap run.2) result = data ∧
    (issues result ∉ dom (arrays (heap w))) ∧
    (∀ l, l ∈ dom (arrays (heap w)) →
          arrays (heap run.2) !! l = arrays (heap w) !! l) ∧
    checkResults (store run.2) = take 10 (result :: checkResults (store w)) ∧
    currentResult (store run.2) = Some result ∧
    Store.latestResult (store run.2) = Some result ∧
    progress (store run.2) = 100%Z ∧
    currentStep (store run.2) = "검사 완료!".
Proof.
  intros run. subst run.
  pose proof (startCheck_returned check_reply url options w data Hreply) as Hrun.
  unfold wp in Hrun. cbv zeta in Hrun.
  destruct Hrun as (Ho & _ & Hprog & Hstep & Hcr & Hcur & Harr & _ & _).
  exists (with_issues data (fresh (dom (arrays (heap w))))).
  assert (Hfresh : fresh (dom (arrays (heap w))) ∉ dom (arrays (heap w)))
    by apply is_fresh.
  split_and!.
  - exact Ho.
  - unfold serialize, read_array. rewrite Harr. cbn [issues with_issues].
    rewrite lookup_insert_eq. apply with_issues_round_trip.
  - exact Hfresh.
  - intros l Hl. rewrite Harr. apply lookup_insert_ne. congruence.
  - exact Hcr.
  - exact Hcur.
  - rewrite latestResult_head, Hcr. reflexivity.
  - exact Hprog.
  - exact Hstep.
Qed.

Lemma startCheck_success_witness :
  ∃ result : CheckResult,
    (Store.startCheck succeeding_check "https://example.com" None empty_world).1
      = Returned result ∧
    serialize (heap (Store.startCheck succeeding_check "https://example.com" None
                       empty_world).2) result = sample_json.
Proof.
  destruct (startCheck_success succeeding_check "https://example.com" None
              empty_world sample_json eq_refl) as (result & H1 & H2 & _).
  exists result. split; [exact H1|exact H2].
Defined.

(** X2.  When the main process rejects the request, [startCheck] throws
    the very error it was given after logging it; the history, the current
    result and all arrays are as before; and the progress indicators stay
    at the last message (95%, still checking) until the timer runs. *)
Theorem startCheck_failure
    (check_reply : string → JsObject → Outcome CheckResultJson)
    (url : string) (options : option loc) (w : World) (e : JsObject)
    (Hreply : check_reply url (spread (defaultOptions (store w))
                                 (from_option (read_object (heap w)) ∅ options))
              = Thrown e) :
  let run := Store.startCheck check_reply url options w in
  run.1 = Thrown e ∧
  console run.2 = (console w ++ [("접근성 검사 실패:", e)])%list ∧
  checkResults (store run.2) = checkResults (store w) ∧
  currentResult (store run.2) = currentResult (store w) ∧
  arrays (heap run.2) = arrays (heap w) ∧
  isChecking (store run.2) = true ∧
  progress (store run.2) = 95%Z ∧
  currentStep (store run.2) = "결과 정리 중...".
Proof.
  intros run. subst run.
  pose proof (startCheck_thrown check_reply url options w e Hreply) as Hrun.
  unfold wp in Hrun.
  destruct Hrun as (Ho & His & Hprog & Hstep & Hcr & Hcur & Harr & Hcon & _).
  split_and!; assumption.
Qed.

Lemma startCheck_failure_witness :
  (Store.startCheck failing_check "https://example.com" None empty_world).1
    = Thrown (new_Error "Error invoking remote method") ∧
  checkResults (store (Store.startCheck failing_check "https://example.com" None
                         empty_world).2) = [].
Proof.
  destruct (startCheck_failure failing_check "https://example.com" None empty_world
              (new_Error "Error invoking remote method") eq_refl)
    as (H1 & _ & H2 & _).
  split; [exact H1|exact H2].
Defined.

Lemma fire_resets (delay : Z) (w1 : World) :
  isChecking (store (fire (ResetChecking delay) w1).2) = false ∧
  currentStep (store (fire (ResetChecking delay) w1).2) = "" ∧
  progress (store (fire (ResetChecking delay) w1).2) = 0%Z ∧
  checkResults (store (fire (ResetChecking delay) w1).2) = checkResults (store w1) ∧
  currentResult (store (fire (ResetChecking delay) w1).2) = currentResult (store w1) ∧
  heap (fire (ResetChecking delay) w1).2 = heap w1.
Proof. by split_and!. Qed.

Lemma fire_sleep (delay : Z) (w1 : World) : (fire (ResolveSleep delay) w1).2 = w1.
Proof. reflexivity. Qed.

(** X3.  Whatever the outcome of a check, a run of [startCheck] on its own
    registers seven timers, in this order: the six waits of 500 ms of the
    progress loop, each awaited before the run goes on, and last the reset of
    the [finally] block, 1000 ms.  The callback of a wait changes nothing.
    Once the reset has run the store shows no check in progress: not
    checking, empty message, progress 0; the reset leaves the history, the
    current result and the heap as [startCheck] left them. *)
Theorem startCheck_then_timer
    (check_reply : string → JsObject → Outcome CheckResultJson)
    (url : string) (options : option loc) (w : World) :
  let w1 := (Store.startCheck check_reply url options w).2 in
  let w2 := (fire (ResetChecking 1000) w1).2 in
  timers w1 = (timers w ++ replicate 6 (ResolveSleep 500)
               ++ [ResetChecking 1000])%list ∧
  (∀ delay : Z, (fire (ResolveSleep delay) w1).2 = w1) ∧
  isChecking (store w2) = false ∧
  currentStep (store w2) = "" ∧
  progress (store w2) = 0%Z ∧
  checkResults (store w2) = checkResults (store w1) ∧
  currentResult (store w2) = currentResult (store w1) ∧
  heap w2 = heap w1.
Proof.
  intros w1 w2. subst w1 w2.
  split; [|split; [intros delay; apply fire_sleep|apply fire_resets]].
  destruct (check_reply url (spread (defaultOptions (store w))
                               (from_option (read_object (heap w)) ∅ options)))
    as [data|e] eqn:Hreply.
  - pose proof (startCheck_returned check_reply url options w data Hreply) as Hrun.
    unfold wp in Hrun. cbv zeta in Hrun. by destruct Hrun as (_&_&_&_&_&_&_&_&->).
  - pose proof (startCheck_thrown check_reply url options w e Hreply) as Hrun.
    unfold wp in Hrun. by destruct Hrun as (_&_&_&_&_&_&_&_&->).
Qed.

(** ** Options *)

Lemma spread_lookup (a b : JsObject) (k : string) :
  spread a b !! k = match b !! k with Some v => Some v | None => a !! k end.
Proof.
  unfold spread. rewrite lookup_union.
  destruct (b !! k), (a !! k); reflexivity.
Qed.

Lemma spread_empty (a : JsObject) : spread a ∅ = a.
Proof. unfold spread. apply (left_id_L ∅ (∪)). Qed.

Lemma spread_twice (a b : JsObject) : spread (spread a b) b = spread a b.
Proof.
  apply map_eq. intros k. rewrite !spread_lookup. by destruct (b !! k).
Qed.

(** X4.  [startCheck] makes exactly one IPC call, on the check channel,
    with the URL it was given and the merged options: for every property
    name the caller's value when the caller's object has that property,
    and the store's default otherwise (so properties outside [CheckOptions]
    are sent along too); without an options argument it sends the defaults
    as they are. *)
Theorem startCheck_sends_merged_options
    (check_reply : string → JsObject → Outcome CheckResultJson)
    (url : string) (options : option loc) (w : World) :
  let w' := (Store.startCheck check_reply url options w).2 in
  ∃ sent : JsObject,
    ipc_log w' = (ipc_log w ++ [InvokeCheck "check-accessibility" url sent])%list ∧
    (∀ k, sent !! k =
          match from_option (read_object (heap w)) ∅ options !! k with
          | Some v => Some v
          | None => defaultOptions (store w) !! k
          end) ∧
    (options = None → sent = defaultOptions (store w)).
Proof.
  intros w'. subst w'.
  destruct (startCheck_run check_reply url options w) as (_ & Hlog & _).
  eexists. split; [exact Hlog|]. split.
  - intros k. apply spread_lookup.
  - intros ->. apply spread_empty.
Qed.

Lemma startCheck_sends_merged_options_witness :
  ∃ sent : JsObject,
    ipc_log (Store.startCheck failing_check "https://example.com" None caller_world).2
      = ([] ++ [InvokeCheck "check-accessibility" "https://example.com" sent])%list ∧
    sent = Store.initial_defaultOptions.
Proof.
  destruct (startCheck_sends_merged_options failing_check "https://example.com"
              None caller_world) as (sent & Hlog & _ & Hnone).
  exists sent. split; [exact Hlog|exact (Hnone eq_refl)].
Defined.

Lemma updateOptions_eq (l : loc) (w : World) :
  Store.updateOptions l w
  = (Returned (),
     {| store := set_defaultOptions
                   (spread (defaultOptions (store w)) (read_object (heap w) l)) (store w);
        heap := heap w; ipc_log := ipc_log w; console := console w;
        timers := timers w |}).
Proof. reflexivity. Qed.

(** X5.  [updateOptions] replaces the defaults by the merge of the old
    defaults and the given options, property by property, and changes
    nothing else; doing it again with the same options changes nothing; and
    a later [startCheck] without options sends exactly the new defaults. *)
Theorem updateOptions_merges
    (check_reply : string → JsObject → Outcome CheckResultJson)
    (url : string) (l : loc) (w : World) :
  let w1 := (Store.updateOptions l w).2 in
  (∀ k, defaultOptions (store w1) !! k =
        match read_object (heap w) l !! k with
        | Some v => Some v
        | None => defaultOptions (store w) !! k
        end) ∧
  checkResults (store w1) = checkResults (store w) ∧
  currentResult (store w1) = currentResult (store w) ∧
  heap w1 = heap w ∧ ipc_log w1 = ipc_log w ∧
  (Store.updateOptions l w1).2 = w1 ∧
  ipc_log (Store.startCheck check_reply url None w1).2
    = (ipc_log w ++ [InvokeCheck "check-accessibility" url
                       (defaultOptions (store w1))])%list.
Proof.
  intros w1.
  assert (Hw1 : w1 = {| store := set_defaultOptions
                          (spread (defaultOptions (store w)) (read_object (heap w) l))
                          (store w);
                        heap := heap w; ipc_log := ipc_log w; console := console w;
                        timers := timers w |}) by reflexivity.
  clearbody w1. subst w1. store_fields. split_and!; try reflexivity.
  - intros k. apply spread_lookup.
  - rewrite updateOptions_eq. store_fields. cbn [snd]. by rewrite spread_twice.
  - match goal with |- context [Store.startCheck _ _ _ ?w0] =>
      destruct (startCheck_run check_reply url None w0) as (_ & Hlog & _)
    end.
    rewrite Hlog. store_fields. cbn [from_option]. by rewrite spread_empty.
Qed.

(** ** The history as a lookup table *)

Lemma getResultById_eq (id : string) (w : World) :
  Store.getResultById id w
  = (Returned (List.find (λ result : CheckResult, String.eqb (checked_at result) id)
                 (checkResults (store w))), w).
Proof. reflexivity. Qed.

(** X6.  Insert then look up: after [addResult result] a lookup by the
    result's own [checked_at] returns that result, even when an older
    result with the same timestamp is stored, and [hasResults] holds.  A
    lookup by any other id sees the nine newest of the older results: the
    tenth is gone. *)
Theorem addResult_then_getResultById (w : World) (result : CheckResult) (id : string) :
  let w' := (Store.addResult result w).2 in
  (Store.getResultById (checked_at result) w').1 = Returned (Some result) ∧
  Store.hasResults (store w') = true ∧
  (id ≠ checked_at result →
   (Store.getResultById id w').1
   = Returned (List.find (λ r : CheckResult, String.eqb (checked_at r) id)
                 (take 9 (checkResults (store w))))).
Proof.
  intros w'. subst w'. rewrite addResult_eq. cbn [snd].
  rewrite !getResultById_eq. store_fields. cbn [fst take List.find].
  split_and!.
  - by rewrite String.eqb_refl.
  - reflexivity.
  - intros Hne. apply not_eq_sym in Hne. apply String.eqb_neq in Hne.
    by rewrite Hne.
Qed.

Lemma addResult_then_getResultById_witness :
  (Store.getResultById "t0"
     (Store.addResult (sample_result "t1" 2%positive) report_world).2).1
  = Returned (Some (sample_result "t0" 1%positive)).
Proof.
  refine (proj2 (proj2 (addResult_then_getResultById report_world
                          (sample_result "t1" 2%positive) "t0")) _).
  discriminate.
Defined.

Lemma take_app_take {A} (n : nat) (xs ys : list A) :
  take n (xs ++ take n ys) = take n (xs ++ ys).
Proof.
  rewrite !take_app, take_take. do 2 f_equal. lia.
Qed.

Lemma add_all_checkResults (r : CheckResult) (rs : list CheckResult) (w : World) :
  checkResults (store (add_all (r :: rs) w))
  = take 10 (rev (r :: rs) ++ checkResults (store w)).
Proof.
  revert r w. induction rs as [|r' rs IH]; intros r w.
  - unfold add_all. cbn [foldl rev app]. rewrite addResult_eq. reflexivity.
  - change (add_all (r :: r' :: rs) w)
      with (add_all (r' :: rs) (Store.addResult r w).2).
    rewrite IH, addResult_eq. store_fields. cbn [snd]. store_fields.
    rewrite take_app_take. cbn [rev]. by rewrite <- !app_assoc.
Qed.

(** X7.  Old results are pushed out: once ten or more results have been
    added, the history consists of the ten newest of them, newest first,
    whatever was stored before; so a lookup by an id that none of the added
    results carries returns null. *)
Theorem ten_additions_evict (rs : list CheckResult) (w : World) (id : string)
    (Hten : (10 ≤ length rs)%nat)
    (Hother : ∀ r, r ∈ rs → checked_at r ≠ id) :
  checkResults (store (add_all rs w)) = take 10 (rev rs) ∧
  (Store.getResultById id (add_all rs w)).1 = Returned None.
Proof.
  assert (Hcr : checkResults (store (add_all rs w)) = take 10 (rev rs)).
  { destruct rs as [|r rs]; [cbn [length] in Hten; lia|].
    rewrite add_all_checkResults, take_app_le; [reflexivity|].
    rewrite length_rev. exact Hten. }
  split; [exact Hcr|].
  rewrite getResultById_eq. cbn [fst]. rewrite Hcr. f_equal.
  pose proof (find_first (λ result : CheckResult, String.eqb (checked_at result) id)
                (take 10 (rev rs))) as Hfind.
  destruct (List.find _ _) as [r|]; [|reflexivity].
  destruct Hfind as (i & Hi & Hp & _).
  apply String.eqb_eq in Hp. exfalso. apply (Hother r); [|exact Hp].
  apply list_elem_of_lookup_2 in Hi. apply subseteq_take in Hi.
  apply list_elem_of_In, in_rev, list_elem_of_In in Hi. exact Hi.
Qed.

Lemma ten_additions_evict_witness :
  (Store.getResultById "t0"
     (add_all (replicate 10 (sample_result "t1" 2%positive)) report_world)).1
  = Returned None.
Proof.
  refine (proj2 (ten_additions_evict (replicate 10 (sample_result "t1" 2%positive))
                   report_world "t0" _ _)).
  - cbn. lia.
  - intros r Hr. apply elem_of_replicate in Hr as [-> _]. discriminate.
Defined.

(** X8.  [clearResults] empties the store's results: afterwards a lookup
    by any id returns null, there is no latest and no current result,
    [hasResults] is false, and the report view has nothing to show whatever
    its route; the heap and the default options are untouched. *)
Theorem clearResults_forgets (w : World) (id : string) (v : Report.View) :
  let w' := (Store.clearResults w).2 in
  (Store.clearResults w).1 = Returned () ∧
  (Store.getResultById id w').1 = Returned None ∧
  Store.latestResult (store w') = None ∧
  Store.hasResults (store w') = false ∧
  currentResult (store w') = None ∧
  (Report.currentResult v w').1 = Returned None ∧
  heap w' = heap w ∧
  defaultOptions (store w') = defaultOptions (store w).
Proof.
  intros w'. subst w'. split_and!; try reflexivity.
  unfold Report.currentResult.
  destruct (Report.route_params_id v) as [rid|]; [destruct (truthy rid)|];
    reflexivity.
Qed.

(** ** What the report view shows *)

Lemma filter_filter_and {A} (p q : A → bool) (xs : list A) :
  List.filter q (List.filter p xs) = List.filter (λ x, p x && q x) xs.
Proof.
  induction xs as [|x xs IH]; [reflexivity|]. cbn [List.filter].
  destruct (p x); cbn [List.filter andb]; [destruct (q x)|]; by rewrite IH.
Qed.

Lemma filter_all {A} (xs : list A) : List.filter (λ _, true) xs = xs.
Proof. induction xs as [|x xs IH]; [reflexivity|]. cbn [List.filter]. by rewrite IH. Qed.

Lemma filteredIssues_array (v : Report.View) (w : World) (result : CheckResult) :
  Report.currentResult v w = (Returned (Some result), w) →
  wp (Report.filteredIssues v) w (λ o w',
    ∃ l, o = Returned l ∧
      read_array (heap w') l
      = stable_sort Report.bySeverity
          (List.filter (passes_filters v) (read_array (heap w) (issues result))) ∧
      store w' = store w).
Proof.
  intros Hcur. unfold Report.filteredIssues, passes_filters.
  apply wp_bind. eapply wp_eval; [exact Hcur|]. cbv beta iota.
  destruct (truthy (Report.selectedSeverity v)), (truthy (Report.selectedCategory v));
    unfold array_filter, array_sort; repeat wp_step;
    rewrite ?read_array_insert; cbn [negb orb];
    (eexists; split; [reflexivity|]; split; [|reflexivity]);
    rewrite ?read_array_insert.
  - by rewrite filter_filter_and.
  - f_equal. apply filter_ext. intros x. by rewrite andb_true_r.
  - reflexivity.
  - f_equal. symmetry. apply (filter_all (read_array (heap w) (issues result))).
Qed.

Lemma currentResult_store (v : Report.View) (w w1 : World) :
  store w1 = store w →
  (Report.currentResult v w1).1 = (Report.currentResult v w).1.
Proof.
  intros Hstore. unfold Report.currentResult.
  destruct (Report.route_params_id v) as [id|]; [destruct (truthy id)|];
    rewrite ?getResultById_eq; unfold mbind, M_bind, get_store, mret, M_ret;
    cbn [fst]; by rewrite Hstore.
Qed.

Lemma currentResult_eq (v : Report.View) (w : World) (r : option CheckResult) :
  (Report.currentResult v w).1 = Returned r →
  Report.currentResult v w = (Returned r, w).
Proof.
  intros Hr. destruct (currentResult_run v w) as [r' Hrun].
  rewrite Hrun in Hr |- *. cbn [fst] in Hr. congruence.
Qed.

(** X9.  With a result to show, [filteredIssues] returns exactly the
    issues of that result that pass the chosen filters (an empty filter
    passes everything), each once per occurrence, ordered critical, high,
    medium, low, and with issues of equal severity in their stored order;
    the store itself is not changed. *)
Theorem filteredIssues_shows (v : Report.View) (w : World) (result : CheckResult)
    (Hcur : (Report.currentResult v w).1 = Returned (Some result)) :
  let stored := read_array (heap w) (issues result) in
  let run := Report.filteredIssues v w in
  ∃ l, run.1 = Returned l ∧
    let shown := read_array (heap run.2) l in
    shown ≡ₚ List.filter (passes_filters v) stored ∧
    Forall (λ issue, passes_filters v issue = true) shown ∧
    StronglySorted
      (λ a b, (Report.severityOrder (severity a) ≤ Report.severityOrder (severity b))%Z)
      shown ∧
    (∀ k, List.filter (λ a, Report.severityOrder (severity a) =? k)%Z shown
          = List.filter (λ a, Report.severityOrder (severity a) =? k)%Z
              (List.filter (passes_filters v) stored)) ∧
    store run.2 = store w.
Proof.
  intros stored run. subst stored run.
  pose proof (filteredIssues_array v w result (currentResult_eq _ _ _ Hcur)) as Hrun.
  unfold wp in Hrun. destruct Hrun as (l & Ho & Hshown & Hstore).
  exists l. split; [exact Ho|]. cbv zeta. rewrite Hshown, bySeverity_by_key.
  split_and!.
  - apply stable_sort_perm.
  - rewrite stable_sort_perm. apply Forall_forall. intros issue Hin.
    apply list_elem_of_In, filter_In in Hin. by destruct Hin as [_ Hpass].
  - apply stable_sort_sorted.
  - intros k. apply stable_sort_stable.
  - exact Hstore.
Qed.

Lemma filteredIssues_shows_witness :
  ∃ l, (Report.filteredIssues unfiltered_view report_world).1 = Returned l ∧
    read_array (heap (Report.filteredIssues unfiltered_view report_world).2) l
      ≡ₚ List.filter (passes_filters unfiltered_view)
           (read_array (heap report_world) 1%positive).
Proof.
  destruct (filteredIssues_shows unfiltered_view report_world
              (sample_result "t0" 1%positive) eq_refl) as (l & Ho & Hperm & _).
  exists l. split; [exact Ho|exact Hperm].
Defined.

Lemma sort_insert_least {A} (key : A → Z) (x : A) (xs : list A) :
  Forall (λ y, (key x ≤ key y)%Z) xs → sort_insert (by_key key) x xs = x :: xs.
Proof.
  destruct 1 as [|y ys Hy _]; cbn [sort_insert]; [reflexivity|].
  unfold by_key. destruct (Z.ltb_spec 0 (key x - key y)); [lia|reflexivity].
Qed.

Lemma stable_sort_of_sorted {A} (key : A → Z) (xs : list A) :
  StronglySorted (λ a b, (key a ≤ key b)%Z) xs → stable_sort (by_key key) xs = xs.
Proof.
  induction 1 as [|x xs Hsorted IH Hx]; [reflexivity|].
  cbn [stable_sort foldr]. fold (stable_sort (by_key key) xs).
  rewrite IH. by apply sort_insert_least.
Qed.

Lemma stable_sort_idemp {A} (key : A → Z) (xs : list A) :
  stable_sort (by_key key) (stable_sort (by_key key) xs) = stable_sort (by_key key) xs.
Proof. apply stable_sort_of_sorted, stable_sort_sorted. Qed.

Lemma truthy_false (s : string) : truthy s = false → s = "".
Proof.
  unfold truthy. intros H. apply negb_false_iff in H. by apply String.eqb_eq.
Qed.

(** X10.  Evaluating [filteredIssues] a second time shows the same list as
    the first time, provided the array of the shown result exists: the
    in-place sort of the first evaluation is the only change it ever makes
    to the stored issues. *)
Theorem filteredIssues_again (v : Report.View) (w : World) (result : CheckResult)
    (Hcur : (Report.currentResult v w).1 = Returned (Some result))
    (Halloc : issues result ∈ dom (arrays (heap w))) :
  let w1 := (Report.filteredIssues v w).2 in
  ∃ l1 l2,
    (Report.filteredIssues v w).1 = Returned l1 ∧
    (Report.filteredIssues v w1).1 = Returned l2 ∧
    read_array (heap (Report.filteredIssues v w1).2) l2 = read_array (heap w1) l1 ∧
    read_array (heap (Report.filteredIssues v w1).2) (issues result)
      = read_array (heap w1) (issues result).
Proof.
  intros w1.
  pose proof (filteredIssues_array v w result (currentResult_eq _ _ _ Hcur)) as Hrun.
  unfold wp in Hrun. destruct Hrun as (l1 & Ho1 & Hshown1 & Hstore1).
  fold w1 in Hshown1, Hstore1.
  assert (Hcur1 : (Report.currentResult v w1).1 = Returned (Some result)).
  { rewrite (currentResult_store v w w1 Hstore1). exact Hcur. }
  pose proof (filteredIssues_array v w1 result (currentResult_eq _ _ _ Hcur1)) as Hrun.
  unfold wp in Hrun. destruct Hrun as (l2 & Ho2 & Hshown2 & _).
  exists l1, l2. split; [exact Ho1|]. split; [exact Ho2|].
  destruct (truthy (Report.selectedSeverity v) || truthy (Report.selectedCategory v))
    eqn:Hfilter.
  - (* a filter is chosen: the stored array is never written *)
    assert (Hkeep1 : read_array (heap w1) (issues result)
                     = read_array (heap w) (issues result)).
    { unfold read_array. subst w1.
      by rewrite (filteredIssues_filtered_keeps v w (issues result) Hfilter Halloc). }
    assert (Halloc1 : issues result ∈ dom (arrays (heap w1))).
    { apply elem_of_dom. subst w1.
      rewrite (filteredIssues_filtered_keeps v w (issues result) Hfilter Halloc).
      by apply elem_of_dom. }
    split.
    + rewrite Hshown2, Hshown1, Hkeep1. reflexivity.
    + unfold read_array.
      by rewrite (filteredIssues_filtered_keeps v w1 (issues result) Hfilter Halloc1).
  - (* no filter: the stored array is sorted, and sorting it again is a no-op *)
    apply orb_false_iff in Hfilter as [Hsev Hcat].
    apply truthy_false in Hsev, Hcat.
    pose proof (filteredIssues_unfiltered_sorts v w result Hsev Hcat
                  (currentResult_eq _ _ _ Hcur)) as Hw1.
    assert (Hl1 : l1 = issues result) by (rewrite Hw1 in Ho1; cbn in Ho1; congruence).
    assert (Hstored1 : read_array (heap w1) (issues result)
                       = stable_sort Report.bySeverity (read_array (heap w) (issues result))).
    { subst w1. rewrite Hw1. unfold write_array. cbn [snd heap].
      apply read_array_insert. }
    pose proof (filteredIssues_unfiltered_sorts v w1 result Hsev Hcat
                  (currentResult_eq _ _ _ Hcur1)) as Hw2.
    assert (Hl2 : l2 = issues result) by (rewrite Hw2 in Ho2; cbn in Ho2; congruence).
    assert (Hstored2 : read_array (heap (Report.filteredIssues v w1).2) (issues result)
                       = read_array (heap w1) (issues result)).
    { rewrite Hw2. unfold write_array. cbn [snd heap]. rewrite read_array_insert.
      rewrite Hstored1, bySeverity_by_key. apply stable_sort_idemp. }
    subst l1 l2. split; exact Hstored2.
Qed.

Lemma filteredIssues_again_witness :
  ∃ l1 l2,
    (Report.filteredIssues unfiltered_view report_world).1 = Returned l1 ∧
    (Report.filteredIssues unfiltered_view
       (Report.filteredIssues unfiltered_view report_world).2).1 = Returned l2.
Proof.
  destruct (filteredIssues_again unfiltered_view report_world
              (sample_result "t0" 1%positive) eq_refl) as (l1 & l2 & H1 & H2 & _).
  - apply elem_of_dom. by eexists.
  - exists l1, l2. split; [exact H1|exact H2].
Defined.

Lemma priorityIssues_array (v : Report.View) (w : World) (result : CheckResult) :
  Report.currentResult v w = (Returned (Some result), w) →
  wp (Report.priorityIssues v) w (λ o w',
    ∃ l, o = Returned l ∧
      read_array (heap w') l
      = take 5 (List.filter Report.is_priority (read_array (heap w) (issues result))) ∧
      store w' = store w).
Proof.
  intros Hcur. unfold Report.priorityIssues.
  apply wp_bind. eapply wp_eval; [exact Hcur|]. cbv beta iota.
  unfold array_filter, array_slice0. repeat wp_step.
  rewrite ?read_array_insert.
  eexists. split; [reflexivity|]. split; [|reflexivity].
  by rewrite read_array_insert.
Qed.

(** X11.  With a result to show, [priorityIssues] returns the first five
    critical or high issues of that result in their stored order: never
    more than five, never a medium or low one; it works on copies, so every
    array that existed before, the result's own included, is unchanged. *)
Theorem priorityIssues_shows (v : Report.View) (w : World) (result : CheckResult)
    (Hcur : (Report.currentResult v w).1 = Returned (Some result)) :
  let stored := read_array (heap w) (issues result) in
  let run := Report.priorityIssues v w in
  ∃ l, run.1 = Returned l ∧
    let shown := read_array (heap run.2) l in
    shown = take 5 (List.filter Report.is_priority stored) ∧
    (length shown ≤ 5)%nat ∧
    Forall (λ issue, severity issue = critical ∨ severity issue = high) shown ∧
    (∀ l0, l0 ∈ dom (arrays (heap w)) →
           arrays (heap run.2) !! l0 = arrays (heap w) !! l0) ∧
    store run.2 = store w.
Proof.
  intros stored run. subst stored run.
  pose proof (priorityIssues_array v w result (currentResult_eq _ _ _ Hcur)) as Hrun.
  unfold wp in Hrun. destruct Hrun as (l & Ho & Hshown & Hstore).
  exists l. split; [exact Ho|]. cbv zeta. rewrite Hshown. split_and!.
  - reflexivity.
  - rewrite length_take. lia.
  - apply Forall_forall. intros issue Hin. apply subseteq_take in Hin.
    apply list_elem_of_In, filter_In in Hin. destruct Hin as [_ Hp].
    unfold Report.is_priority in Hp. destruct (severity issue); auto; discriminate.
  - intros l0 Hl0. by apply priorityIssues_keeps.
  - exact Hstore.
Qed.

Lemma priorityIssues_shows_witness :
  ∃ l, (Report.priorityIssues unfiltered_view report_world).1 = Returned l ∧
    read_array (heap (Report.priorityIssues unfiltered_view report_world).2) l
    = take 5 (List.filter Report.is_priority (read_array (heap report_world) 1%positive)).
Proof.
  destruct (priorityIssues_shows unfiltered_view report_world
              (sample_result "t0" 1%positive) eq_refl) as (l & Ho & Hshown & _).
  exists l. split; [exact Ho|exact Hshown].
Defined.

(** ** Counts *)

Lemma count_types_from (counts : gmap string nat) (xs : list AccessibilityIssue)
    (t : string) :
  foldl (λ counts issue,
           <[type issue := S (default 0%nat (counts !! type issue))]> counts)
        counts xs !! t
  = let n := length (List.filter (λ issue, String.eqb (type issue) t) xs) in
    match counts !! t with
    | Some c => Some (c + n)%nat
    | None => if decide (n = 0%nat) then None else Some n
    end.
Proof.
  revert counts. induction xs as [|x xs IH]; intros counts; cbn [foldl List.filter].
  - cbn. destruct (counts !! t); [f_equal; lia|reflexivity].
  - rewrite IH. cbv zeta.
    destruct (String.eqb_spec (type x) t) as [Heq|Hne].
    + rewrite Heq, lookup_insert_eq. cbn [length].
      destruct (counts !! t) as [c|]; cbn [default from_option id].
      * f_equal. lia.
      * case_decide; [lia|]. f_equal.
    + rewrite lookup_insert_ne by exact Hne. reflexivity.
Qed.

Lemma count_types_lookup (xs : list AccessibilityIssue) (t : string) :
  Report.count_types xs !! t
  = let n := length (List.filter (λ issue, String.eqb (type issue) t) xs) in
    if decide (n = 0%nat) then None else Some n.
Proof. unfold Report.count_types. by rewrite count_types_from, lookup_empty. Qed.

(** X12.  With a result to show, whose issue types are not names inherited
    from [Object.prototype], [issueCountByCategory] has an entry for a type
    exactly when some issue of the result has that type, and the entry is
    the number of those issues (never 0); the call changes nothing. *)
Theorem issueCountByCategory_counts (v : Report.View) (w : World)
    (result : CheckResult) (t : string)
    (Hcur : (Report.currentResult v w).1 = Returned (Some result))
    (Hnames : Forall (λ issue, type issue ∉ Object_prototype_names)
                (read_array (heap w) (issues result))) :
  let stored := read_array (heap w) (issues result) in
  let n := length (List.filter (λ issue, String.eqb (type issue) t) stored) in
  ∃ counts,
    Report.issueCountByCategory v w = (Returned counts, w) ∧
    counts !! t = (if decide (n = 0%nat) then None else Some n) ∧
    (is_Some (counts !! t) ↔ ∃ issue, issue ∈ stored ∧ type issue = t).
Proof.
  intros stored n. subst stored n.
  exists (Report.count_types (read_array (heap w) (issues result))).
  split_and!.
  - unfold Report.issueCountByCategory, mbind, M_bind.
    by rewrite (currentResult_eq _ _ _ Hcur).
  - apply count_types_lookup.
  - rewrite count_types_lookup. cbv zeta.
    set (matching := List.filter _ _).
    split.
    + intros Hsome. destruct matching as [|issue rest] eqn:Hm.
      { cbn in Hsome. by destruct Hsome. }
      assert (Hin : In issue matching) by (rewrite Hm; by left).
      apply filter_In in Hin as [Hin Heq].
      exists issue. split; [by apply list_elem_of_In|by apply String.eqb_eq].
    + intros (issue & Hin & Heq).
      assert (Hin' : In issue matching).
      { apply filter_In. split; [by apply list_elem_of_In|by apply String.eqb_eq]. }
      destruct matching; [inversion Hin'|]. cbn. by eexists.
Qed.

Lemma issueCountByCategory_counts_witness :
  ∃ counts,
    Report.issueCountByCategory unfiltered_view report_world
      = (Returned counts, report_world) ∧
    counts !! "image" = Some 2%nat.
Proof.
  destruct (issueCountByCategory_counts unfiltered_view report_world
              (sample_result "t0" 1%positive) "image" eq_refl) as (counts & H1 & H2 & _).
  - repeat constructor; intros Hin;
      repeat (apply elem_of_cons in Hin as [Hin|Hin]; [discriminate Hin|]);
      inversion Hin.
  - exists counts. split; [exact H1|exact H2].
Defined.

Lemma filter_length_perm {A} (p : A → bool) (xs ys : list A) :
  xs ≡ₚ ys → length (List.filter p xs) = length (List.filter p ys).
Proof.
  induction 1 as [|x xs ys _ IH|x y xs|xs ys zs _ IH1 _ IH2]; cbn [List.filter].
  - reflexivity.
  - destruct (p x); cbn [length]; by rewrite IH.
  - destruct (p x), (p y); reflexivity.
  - by rewrite IH1.
Qed.

Lemma filteredIssues_stored_perm (v : Report.View) (w : World) (result : CheckResult) :
  (Report.currentResult v w).1 = Returned (Some result) →
  issues result ∈ dom (arrays (heap w)) →
  read_array (heap (Report.filteredIssues v w).2) (issues result)
    ≡ₚ read_array (heap w) (issues result).
Proof.
  intros Hcur Halloc.
  destruct (truthy (Report.selectedSeverity v) || truthy (Report.selectedCategory v))
    eqn:Hfilter.
  - unfold read_array.
    by rewrite (filteredIssues_filtered_keeps v w (issues result) Hfilter Halloc).
  - apply orb_false_iff in Hfilter as [Hsev Hcat].
    apply truthy_false in Hsev, Hcat.
    rewrite (filteredIssues_unfiltered_sorts v w result Hsev Hcat
               (currentResult_eq _ _ _ Hcur)).
    unfold write_array. cbn [snd heap]. rewrite read_array_insert, bySeverity_by_key.
    apply stable_sort_perm.
Qed.

(** X13.  The counts of the report do not depend on the sorting: after
    [filteredIssues] has run, [getCriticalIssueCount] and
    [issueCountByCategory] return what they returned before (the array of
    the shown result being in the heap, and its issue types not being names
    inherited from [Object.prototype]); and the critical count is the
    number of critical issues of the result, at most the number of its
    issues. *)
Theorem counts_survive_filteredIssues (v : Report.View) (w : World)
    (result : CheckResult)
    (Hcur : (Report.currentResult v w).1 = Returned (Some result))
    (Halloc : issues result ∈ dom (arrays (heap w)))
    (Hnames : Forall (λ issue, type issue ∉ Object_prototype_names)
                (read_array (heap w) (issues result))) :
  let w1 := (Report.filteredIssues v w).2 in
  let stored := read_array (heap w) (issues result) in
  (Report.getCriticalIssueCount v w).1
    = Returned (length (List.filter Report.is_critical stored)) ∧
  (length (List.filter Report.is_critical stored) ≤ length stored)%nat ∧
  (Report.getCriticalIssueCount v w1).1 = (Report.getCriticalIssueCount v w).1 ∧
  (Report.issueCountByCategory v w1).1 = (Report.issueCountByCategory v w).1.
Proof.
  intros w1 stored.
  pose proof (filteredIssues_stored_perm v w result Hcur Halloc) as Hperm.
  fold w1 in Hperm.
  assert (Hstore1 : store w1 = store w).
  { pose proof (filteredIssues_array v w result (currentResult_eq _ _ _ Hcur)) as Hrun.
    unfold wp in Hrun. by destruct Hrun as (l & _ & _ & Hstore). }
  assert (Hcur1 : (Report.currentResult v w1).1 = Returned (Some result)).
  { by rewrite (currentResult_store v w w1 Hstore1). }
  assert (Hcount : ∀ w0, (Report.currentResult v w0).1 = Returned (Some result) →
            (Report.getCriticalIssueCount v w0).1
            = Returned (length (List.filter Report.is_critical
                                  (read_array (heap w0) (issues result))))).
  { intros w0 H0. unfold Report.getCriticalIssueCount, mbind, M_bind.
    by rewrite (currentResult_eq _ _ _ H0). }
  assert (Htypes : ∀ w0, (Report.currentResult v w0).1 = Returned (Some result) →
            (Report.issueCountByCategory v w0).1
            = Returned (Report.count_types (read_array (heap w0) (issues result)))).
  { intros w0 H0. unfold Report.issueCountByCategory, mbind, M_bind.
    by rewrite (currentResult_eq _ _ _ H0). }
  split_and!.
  - apply (Hcount w Hcur).
  - clear. induction stored as [|i xs IH]; cbn [List.filter length]; [lia|].
    destruct (Report.is_critical i); cbn [length]; lia.
  - rewrite (Hcount w1 Hcur1), (Hcount w Hcur). f_equal.
    by apply filter_length_perm.
  - rewrite (Htypes w1 Hcur1), (Htypes w Hcur). f_equal.
    apply map_eq. intros t. rewrite !count_types_lookup. cbv zeta.
    by rewrite (filter_length_perm _ _ _ Hperm).
Qed.

Lemma counts_survive_filteredIssues_witness :
  (Report.getCriticalIssueCount unfiltered_view
     (Report.filteredIssues unfiltered_view report_world).2).1
  = (Report.getCriticalIssueCount unfiltered_view report_world).1.
Proof.
  refine (proj1 (proj2 (proj2
    (counts_survive_filteredIssues unfiltered_view report_world
       (sample_result "t0" 1%positive) eq_refl _ _)))).
  - apply elem_of_dom. by eexists.
  - repeat constructor; intros Hin;
      repeat (apply elem_of_cons in Hin as [Hin|Hin]; [discriminate Hin|]);
      inversion Hin.
Defined.

(** ** Expanding issues, and leaving the report *)

(** X14.  [toggleIssueDetails] flips one index and nothing else: the index
    is expanded afterwards exactly when it was not before, every other
    index and both filters stay as they were, and toggling twice gives back
    the original set. *)
Theorem toggleIssueDetails_flips (index other : nat) (v : Report.View) :
  let v' := Report.toggleIssueDetails index v in
  (index ∈ Report.expandedIssues v' ↔ index ∉ Report.expandedIssues v) ∧
  (other ≠ index →
   (other ∈ Report.expandedIssues v' ↔ other ∈ Report.expandedIssues v)) ∧
  Report.expandedIssues (Report.toggleIssueDetails index v') = Report.expandedIssues v ∧
  Report.selectedSeverity v' = Report.selectedSeverity v ∧
  Report.selectedCategory v' = Report.selectedCategory v ∧
  Report.route_params_id v' = Report.route_params_id v.
Proof.
  intros v'. subst v'. unfold Report.toggleIssueDetails.
  cbn [Report.expandedIssues Report.selectedSeverity Report.selectedCategory
       Report.route_params_id].
  split_and!; try reflexivity.
  - case_bool_decide as Hin; set_solver.
  - intros Hne. case_bool_decide as Hin; set_solver.
  - destruct (decide (index ∈ Report.expandedIssues v)) as [Hin|Hout].
    + rewrite (bool_decide_true _ Hin), bool_decide_false by set_solver.
      apply set_eq. intros x. destruct (decide (x = index)) as [->|Hx]; set_solver.
    + rewrite (bool_decide_false _ Hout), bool_decide_true by set_solver.
      set_solver.
Qed.

Lemma toggleIssueDetails_flips_witness :
  (1%nat ∈ Report.expandedIssues (Report.toggleIssueDetails 0%nat unfiltered_view)
   ↔ 1%nat ∈ Report.expandedIssues unfiltered_view).
Proof.
  refine (proj1 (proj2 (toggleIssueDetails_flips 0%nat 1%nat unfiltered_view)) _).
  lia.
Defined.

(** X15.  On mounting, the report view goes back to the start page exactly
    when its route carries a non-empty id that no stored result has as
    [checked_at], whatever the store's current result is; otherwise it
    stays.  Mounting changes nothing in the store or the heap. *)
Theorem onMounted_redirects (v : Report.View) (w : World) :
  (Report.onMounted v w).2 = w ∧
  ((Report.onMounted v w).1 = Returned [RouterPush "/"] ∨
   (Report.onMounted v w).1 = Returned []) ∧
  ((Report.onMounted v w).1 = Returned [RouterPush "/"] ↔
   ∃ id, Report.route_params_id v = Some id ∧ id ≠ "" ∧
         ∀ r, r ∈ checkResults (store w) → checked_at r ≠ id).
Proof.
  unfold Report.onMounted, Report.currentResult.
  destruct (Report.route_params_id v) as [id|].
  2: { split_and!; [reflexivity|by right|]. split; [discriminate|].
       by intros (id & Hid & _). }
  unfold truthy. destruct (String.eqb_spec id "") as [->|Hne]; cbn [negb].
  { split_and!; [reflexivity|by right|]. split; [discriminate|].
    intros (id & Hid & Hne & _). congruence. }
  unfold mbind, M_bind. rewrite getResultById_eq.
  pose proof (find_first (λ result : CheckResult, String.eqb (checked_at result) id)
                (checkResults (store w))) as Hfind.
  destruct (List.find _ _) as [r|]; cbn [fst snd mret M_ret].
  - split_and!; [reflexivity|by right|]. split; [discriminate|].
    intros (id' & Hid & _ & Hnone). injection Hid as <-.
    destruct Hfind as (i & Hi & Hp & _). apply String.eqb_eq in Hp.
    exfalso. apply (Hnone r); [|exact Hp]. by apply list_elem_of_lookup_2 in Hi.
  - split_and!; [reflexivity|by left|]. split; [|reflexivity].
    intros _. exists id. split_and!; [reflexivity|exact Hne|].
    intros r Hr. apply String.eqb_neq. by apply Hfind.
Qed.

Lemma onMounted_redirects_witness :
  (Report.onMounted (view_by_id "t9") report_world).1 = Returned [RouterPush "/"].
Proof.
  apply (proj2 (proj2 (onMounted_redirects (view_by_id "t9") report_world))).
  exists "t9". split_and!; [reflexivity|discriminate|].
  intros r Hr. apply list_elem_of_singleton in Hr as ->. discriminate.
Defined.

(** ** Exporting from the report view *)

Lemma export_channel_cases (format : string) :
  (export_channel format = Some "export-json" ∧ format = "json") ∨
  (export_channel format = Some "export-html" ∧ format = "html") ∨
  (export_channel format = Some "export-pdf" ∧ format = "pdf") ∨
  (export_channel format = None ∧ format ∉ ["json"; "html"; "pdf"]).
Proof.
  unfold export_channel, export_channels. cbn [List.find fst snd].
  rewrite (String.eqb_sym "json"), (String.eqb_sym "html"), (String.eqb_sym "pdf").
  destruct (String.eqb_spec format "json") as [->|Hjson]; [by left|].
  destruct (String.eqb_spec format "html") as [->|Hhtml]; [by right; left|].
  destruct (String.eqb_spec format "pdf") as [->|Hpdf]; [by right; right; left|].
  right; right; right. split; [reflexivity|].
  rewrite !elem_of_cons, elem_of_nil. tauto.
Qed.

Lemma store_exportResult_run
    (export_reply : string → CheckResultJson → Outcome unit)
    (result : CheckResult) (format : string) (w : World) :
  ∃ w', store w' = store w ∧ heap w' = heap w ∧
    Store.exportResult export_reply result format w
    = (match export_channel format with
       | Some channel => export_reply channel (serialize (heap w) result)
       | None => Thrown (new_Error "지원하지 않는 내보내기 형식입니다.")
       end, w') ∧
    (length (ipc_log w') ≤ S (length (ipc_log w)))%nat ∧
    (export_channel format = None → ipc_log w' = ipc_log w).
Proof.
  unfold Store.exportResult, try_catch.
  destruct (export_channel_cases format) as [[-> ->]|[[-> ->]|[[-> ->]|[-> Hnot]]]].
  1-3: cbn [String.eqb Ascii.eqb Bool.eqb]; rewrite invoke_export_run;
    destruct (export_reply _ (serialize (heap w) result)) as [[]|e];
    eexists; (split_and!; [| |reflexivity| |discriminate]);
    try reflexivity;
    unfold console_error, throw, mbind, M_bind, log_ipc; cbn [fst snd ipc_log];
    rewrite length_app; cbn [length]; lia.
  rewrite !elem_of_cons, elem_of_nil in Hnot.
  destruct (String.eqb_spec format "json") as [?|_]; [tauto|].
  destruct (String.eqb_spec format "html") as [?|_]; [tauto|].
  destruct (String.eqb_spec format "pdf") as [?|_]; [tauto|].
  eexists. split_and!; [| |reflexivity| |reflexivity]; try reflexivity.
  cbn. lia.
Qed.

(** X16.  The report view's [exportResult] never throws.  With nothing to
    show it does nothing at all.  Otherwise it shows exactly one alert: the
    success message with the format in upper case when the format is json,
    html or pdf and the export call succeeded, and the failure message when
    the call failed or the format is unknown; it makes at most one IPC
    call, none for an unknown format, and leaves store and heap as they
    were. *)
Theorem report_exportResult_alerts
    (export_reply : string → CheckResultJson → Outcome unit)
    (v : Report.View) (format : string) (w : World) :
  let run := Report.exportResult export_reply v format w in
  store run.2 = store w ∧ heap run.2 = heap w ∧
  (length (ipc_log run.2) ≤ S (length (ipc_log w)))%nat ∧
  match (Report.currentResult v w).1 with
  | Returned (Some result) =>
      run.1 = Returned
        [Alert match export_channel format with
               | Some channel =>
                   match export_reply channel (serialize (heap w) result) with
                   | Returned _ =>
                       toUpperCase format +:+ " 파일로 내보내기가 완료되었습니다."
                   | Thrown _ => "내보내기 중 오류가 발생했습니다."
                   end
               | None => "내보내기 중 오류가 발생했습니다."
               end] ∧
      (export_channel format = None → ipc_log run.2 = ipc_log w)
  | _ => run = (Returned [], w)
  end.
Proof.
  intros run.
  destruct (currentResult_run v w) as [r Hcur].
  assert (Hrun : run =
    match r with
    | None => (Returned [], w)
    | Some result =>
        match Store.exportResult export_reply result format w with
        | (Returned _, w') =>
            (Returned [Alert (toUpperCase format +:+ " 파일로 내보내기가 완료되었습니다.")], w')
        | (Thrown _, w') => (Returned [Alert "내보내기 중 오류가 발생했습니다."], w')
        end
    end).
  { subst run. unfold Report.exportResult, mbind at 1, M_bind at 1.
    rewrite Hcur. destruct r as [result|]; [|reflexivity].
    unfold try_catch, mbind, M_bind.
    by destruct (Store.exportResult export_reply result format w) as [[[]|e] w']. }
  clearbody run. subst run. rewrite Hcur. cbn [fst].
  destruct r as [result|]; [|cbn [fst snd]; split_and!; [reflexivity..|lia|reflexivity]].
  destruct (store_exportResult_run export_reply result format w)
    as (w' & Hstore & Hheap & -> & Hlen & Hnone).
  destruct (export_channel format) as [channel|].
  - destruct (export_reply channel (serialize (heap w) result)) as [[]|e];
      cbn [fst snd]; split_and!; try assumption; try reflexivity.
  - cbn [fst snd]. split_and!; try assumption; reflexivity.
Qed.

Lemma report_exportResult_alerts_witness :
  ipc_log (Report.exportResult (λ _ _, Returned ()) unfiltered_view "xml"
             report_world).2 = ipc_log report_world.
Proof.
  refine (proj2 (proj2 (proj2 (proj2
    (report_exportResult_alerts (λ _ _, Returned ()) unfiltered_view "xml"
       report_world)))) _).
  reflexivity.
Defined.

Example report_exportResult_json :
  (Report.exportResult (λ _ _, Returned ()) unfiltered_view "json" report_world).1
  = Returned [Alert "JSON 파일로 내보내기가 완료되었습니다."].
Proof. reflexivity. Qed.

(** ** Submitting a check and opening a stored result *)

Lemma handleSubmit_eq
    (check_reply : string → JsObject → Outcome CheckResultJson)
    (url : string) (options : loc) (w : World) :
  url ≠ "" →
  Checker.handleSubmit check_reply url options w
  = match Store.startCheck check_reply url (Some options) w with
    | (Returned _, w') => (Returned [RouterPush "/report"], w')
    | (Thrown e, w') =>
        (Returned [Alert "검사 중 오류가 발생했습니다. 다시 시도해주세요."],
         (console_error "검사 실패:" e w').2)
    end.
Proof.
  intros Hurl. unfold Checker.handleSubmit, truthy.
  apply String.eqb_neq in Hurl. rewrite Hurl. cbn [negb].
  unfold try_catch, mbind, M_bind.
  by destruct (Store.startCheck check_reply url (Some options) w) as [[r|e] w'].
Qed.

(** X17.  [handleSubmit] never throws.  With an empty URL it does nothing.
    When the check succeeds it navigates to the report page, and the report
    view without an id then shows the new result, which reads back as the
    report received and is the latest result.  When the check fails it
    shows the failure alert and does not navigate; the error has been
    logged twice (by the store and by the view) and the history and the
    current result are as before. *)
Theorem handleSubmit_outcomes
    (check_reply : string → JsObject → Outcome CheckResultJson)
    (url : string) (options : loc) (w : World) :
  let run := Checker.handleSubmit check_reply url options w in
  let sent := spread (defaultOptions (store w)) (read_object (heap w) options) in
  (url = "" → run = (Returned [], w)) ∧
  (∀ data, url ≠ "" → check_reply url sent = Returned data →
     run.1 = Returned [RouterPush "/report"] ∧
     ∃ result : CheckResult,
       serialize (heap run.2) result = data ∧
       (Report.currentResult unfiltered_view run.2).1 = Returned (Some result) ∧
       Store.latestResult (store run.2) = Some result) ∧
  (∀ e, url ≠ "" → check_reply url sent = Thrown e →
     run.1 = Returned [Alert "검사 중 오류가 발생했습니다. 다시 시도해주세요."] ∧
     console run.2 = (console w ++ [("접근성 검사 실패:", e); ("검사 실패:", e)])%list ∧
     checkResults (store run.2) = checkResults (store w) ∧
     currentResult (store run.2) = currentResult (store w)).
Proof.
  intros run sent. split_and!.
  - intros ->. reflexivity.
  - intros data Hurl Hreply. subst run. rewrite (handleSubmit_eq _ _ _ _ Hurl).
    pose proof (startCheck_returned check_reply url (Some options) w data Hreply) as Hrun.
    unfold wp in Hrun. cbv zeta in Hrun.
    destruct Hrun as (Ho & _ & _ & _ & Hcr & Hcur & Harr & _).
    destruct (Store.startCheck check_reply url (Some options) w) as [o w'].
    cbn [fst snd] in *. subst o. cbn [fst snd].
    split; [reflexivity|].
    exists (with_issues data (fresh (dom (arrays (heap w))))). split_and!.
    + unfold serialize, read_array. rewrite Harr. cbn [issues with_issues].
      rewrite lookup_insert_eq. apply with_issues_round_trip.
    + unfold Report.currentResult, unfiltered_view, mbind, M_bind, get_store, mret, M_ret.
      cbn [Report.route_params_id fst]. by rewrite Hcur.
    + rewrite latestResult_head, Hcr. reflexivity.
  - intros e Hurl Hreply. subst run. rewrite (handleSubmit_eq _ _ _ _ Hurl).
    pose proof (startCheck_thrown check_reply url (Some options) w e Hreply) as Hrun.
    unfold wp in Hrun.
    destruct Hrun as (Ho & _ & _ & _ & Hcr & Hcur & _ & Hcon & _).
    destruct (Store.startCheck check_reply url (Some options) w) as [o w'].
    cbn [fst snd] in *. subst o. unfold console_error. cbn [fst snd store console].
    split_and!; [reflexivity| |exact Hcr|exact Hcur].
    rewrite Hcon, <- app_assoc. reflexivity.
Qed.

Lemma handleSubmit_outcomes_witness :
  (Checker.handleSubmit failing_check "https://example.com" 1%positive caller_world).1
  = Returned [Alert "검사 중 오류가 발생했습니다. 다시 시도해주세요."].
Proof.
  refine (proj1 (proj2 (proj2
    (handleSubmit_outcomes failing_check "https://example.com" 1%positive caller_world))
    (new_Error "Error invoking remote method") _ eq_refl)).
  discriminate.
Defined.

Lemma find_unique_timestamp (rs : list CheckResult) (r : CheckResult) :
  r ∈ rs → NoDup (checked_at <$> rs) →
  List.find (λ result : CheckResult, String.eqb (checked_at result) (checked_at r)) rs
  = Some r.
Proof.
  intros Hin Hnodup.
  pose proof (find_first (λ result : CheckResult,
                            String.eqb (checked_at result) (checked_at r)) rs) as Hfind.
  destruct (List.find _ rs) as [r'|].
  - destruct Hfind as (i & Hi & Hp & _). apply String.eqb_eq in Hp.
    apply list_elem_of_lookup_1 in Hin as [j Hj].
    assert (Hij : i = j).
    { apply (NoDup_lookup (checked_at <$> rs) i j (checked_at r) Hnodup);
        rewrite list_lookup_fmap; [rewrite Hi|rewrite Hj]; cbn; congruence. }
    subst j. congruence.
  - specialize (Hfind r Hin). by rewrite String.eqb_refl in Hfind.
Qed.

Lemma viewResult_eq (result : CheckResult) (w : World) :
  Checker.viewResult result w
  = (Returned [RouterPush ("/report/" +:+ checked_at result)],
     {| store := set_currentResult (Some result) (store w); heap := heap w;
        ipc_log := ipc_log w; console := console w; timers := timers w |}).
Proof. reflexivity. Qed.

(** X18.  [viewResult result] makes [result] the store's current result
    and navigates to the path made of [/report/] and [result]'s [checked_at]
    as it is; nothing but the current result changes.  What the report view
    then shows depends on the [id] its route carries.  Without an id (or
    with an empty one) it shows [result].  With an id it ignores the current
    result and shows the first stored result whose [checked_at] is that id:
    nothing at all when no stored result has that [checked_at], and
    [result] when the id is [result]'s [checked_at], [result] is stored and
    no two stored results share a [checked_at]. *)
Theorem viewResult_shows (result : CheckResult) (w : World) (v : Report.View) :
  let run := Checker.viewResult result w in
  run.1 = Returned [RouterPush ("/report/" +:+ checked_at result)] ∧
  currentResult (store run.2) = Some result ∧
  checkResults (store run.2) = checkResults (store w) ∧
  heap run.2 = heap w ∧
  (from_option truthy false (Report.route_params_id v) = false →
   (Report.currentResult v run.2).1 = Returned (Some result)) ∧
  (∀ id : string,
     Report.route_params_id v = Some id → truthy id = true →
     (Report.currentResult v run.2).1
     = Returned (List.find (λ r : CheckResult, String.eqb (checked_at r) id)
                   (checkResults (store w)))) ∧
  (∀ id : string,
     Report.route_params_id v = Some id → truthy id = true →
     (∀ r, r ∈ checkResults (store w) → checked_at r ≠ id) →
     (Report.currentResult v run.2).1 = Returned None) ∧
  (Report.route_params_id v = Some (checked_at result) →
   result ∈ checkResults (store w) →
   NoDup (checked_at <$> checkResults (store w)) →
   (Report.currentResult v run.2).1 = Returned (Some result)).
Proof.
  intros run. subst run. rewrite viewResult_eq. cbn [fst snd store heap].
  assert (Hid : ∀ id : string,
            Report.route_params_id v = Some id → truthy id = true →
            (Report.currentResult v
               {| store := set_currentResult (Some result) (store w); heap := heap w;
                  ipc_log := ipc_log w; console := console w; timers := timers w |}).1
            = Returned (List.find (λ r : CheckResult, String.eqb (checked_at r) id)
                          (checkResults (store w)))).
  { intros id Hv Hid. unfold Report.currentResult. rewrite Hv, Hid.
    by rewrite getResultById_eq. }
  split_and!; try reflexivity.
  - unfold Report.currentResult.
    destruct (Report.route_params_id v) as [id|]; cbn [from_option];
      [intros ->|intros _]; reflexivity.
  - exact Hid.
  - intros id Hv Hid' Hnone. rewrite (Hid id Hv Hid'). f_equal.
    pose proof (find_first (λ r : CheckResult, String.eqb (checked_at r) id)
                  (checkResults (store w))) as Hfind.
    destruct (List.find _ (checkResults (store w))) as [r|]; [|reflexivity].
    destruct Hfind as (i & Hi & Hp & _). apply String.eqb_eq in Hp.
    destruct (Hnone r); [|exact Hp]. by eapply list_elem_of_lookup_2.
  - intros Hv Hin Hnodup.
    destruct (truthy (checked_at result)) eqn:Hid'.
    + rewrite (Hid _ Hv Hid'). f_equal. by apply find_unique_timestamp.
    + unfold Report.currentResult. rewrite Hv, Hid'. reflexivity.
Qed.

Lemma viewResult_shows_witness :
  (Report.currentResult (view_by_id "t0")
     (Checker.viewResult (sample_result "t0" 1%positive) report_world).2).1
  = Returned (Some (sample_result "t0" 1%positive)) ∧
  (Report.currentResult (view_by_id "t")
     (Checker.viewResult (sample_result "t#1" 1%positive)
        (Store.addResult (sample_result "t#1" 1%positive) empty_world).2).2).1
  = Returned None.
Proof.
  split.
  - refine (proj2 (proj2 (proj2 (proj2 (proj2 (proj2 (proj2
      (viewResult_shows (sample_result "t0" 1%positive) report_world
         (view_by_id "t0")))))))) _ _ _).
    + reflexivity.
    + apply list_elem_of_singleton. reflexivity.
    + apply NoDup_singleton.
  - refine (proj1 (proj2 (proj2 (proj2 (proj2 (proj2 (proj2
      (viewResult_shows (sample_result "t#1" 1%positive)
         (Store.addResult (sample_result "t#1" 1%positive) empty_world).2
         (view_by_id "t")))))))) "t" _ _ _).
    + reflexivity.
    + reflexivity.
    + intros r Hr. apply list_elem_of_singleton in Hr. subst r. discriminate.
Defined.

(** ** What every reachable state satisfies *)

Lemma well_kept_frame (w w' : World) :
  store w' = store w → dom (arrays (heap w)) ⊆ dom (arrays (heap w')) →
  well_kept w → well_kept w'.
Proof.
  intros Hstore Hdom (Hlen & Halloc & Hnodup & Hcur).
  unfold well_kept. rewrite Hstore. split_and!; auto.
Qed.

Lemma filteredIssues_frame (v : Report.View) (w : World) :
  wp (Report.filteredIssues v) w (λ _ w',
    store w' = store w ∧ dom (arrays (heap w)) ⊆ dom (arrays (heap w'))).
Proof.
  unfold Report.filteredIssues.
  destruct (currentResult_run v w) as [r Hcur].
  apply wp_bind. eapply wp_eval; [exact Hcur|]. cbv beta iota.
  destruct r as [result|].
  - destruct (truthy (Report.selectedSeverity v)),
             (truthy (Report.selectedCategory v));
      unfold array_filter, array_sort; repeat wp_step;
      (split; [reflexivity|]); rewrite ?dom_insert; set_solver.
  - wp_step. split; [reflexivity|]. rewrite dom_insert. set_solver.
Qed.

Lemma priorityIssues_frame (v : Report.View) (w : World) :
  wp (Report.priorityIssues v) w (λ _ w',
    store w' = store w ∧ dom (arrays (heap w)) ⊆ dom (arrays (heap w'))).
Proof.
  unfold Report.priorityIssues.
  destruct (currentResult_run v w) as [r Hcur].
  apply wp_bind. eapply wp_eval; [exact Hcur|]. cbv beta iota.
  destruct r as [result|].
  - unfold array_filter, array_slice0. repeat wp_step.
    split; [reflexivity|]. rewrite ?dom_insert. set_solver.
  - wp_step. split; [reflexivity|]. rewrite dom_insert. set_solver.
Qed.

Lemma report_exportResult_frame
    (export_reply : string → CheckResultJson → Outcome unit)
    (v : Report.View) (format : string) (w : World) :
  store (Report.exportResult export_reply v format w).2 = store w ∧
  heap (Report.exportResult export_reply v format w).2 = heap w.
Proof.
  unfold Report.exportResult, mbind at 1 3, M_bind at 1 3.
  destruct (currentResult_run v w) as [r ->].
  destruct r as [result|]; [|by split].
  unfold try_catch, mbind, M_bind.
  destruct (store_exportResult_run export_reply result format w)
    as (w' & Hstore & Hheap & -> & _).
  by destruct (match export_channel format with Some _ => _ | None => _ end) as [[]|e].
Qed.

Lemma well_kept_new_result (w : World) (result : CheckResult) (w' : World) :
  well_kept w →
  (issues result ∉ dom (arrays (heap w))) →
  dom (arrays (heap w')) = {[ issues result ]} ∪ dom (arrays (heap w)) →
  checkResults (store w') = take 10 (result :: checkResults (store w)) →
  currentResult (store w') = Some result →
  well_kept w'.
Proof.
  intros (Hlen & Halloc & Hnodup & Hcur) Hfresh Hdom Hcr Hcur'.
  unfold well_kept. rewrite Hcr, Hcur', Hdom. split_and!.
  - rewrite length_take. lia.
  - intros r Hr. apply subseteq_take in Hr.
    apply elem_of_cons in Hr as [->|Hr]; [set_solver|].
    specialize (Halloc r Hr). set_solver.
  - rewrite fmap_take. eapply sublist_NoDup; [|apply sublist_take].
    cbn [fmap list_fmap]. apply NoDup_cons. split; [|exact Hnodup].
    intros Hin. apply list_elem_of_fmap in Hin as (r & Heq & Hr).
    apply Hfresh. rewrite Heq. by apply Halloc.
  - intros r [= <-]. cbn [take]. apply list_elem_of_here.
Qed.

Lemma ui_step_well_kept (w w' : World) : ui_step w w' → well_kept w → well_kept w'.
Proof.
  intros Hstep Hw. destruct Hstep as [check_reply url options w|result w Hin|v w|v w
                                     |export_reply v format w|t w].
  - (* submitting the form *)
    destruct (decide (url = "")) as [->|Hurl]; [exact Hw|].
    rewrite (handleSubmit_eq _ _ _ _ Hurl).
    destruct (check_reply url (spread (defaultOptions (store w))
                (from_option (read_object (heap w)) ∅ (Some options))))
      as [data|e] eqn:Hreply.
    + pose proof (startCheck_returned check_reply url (Some options) w data Hreply)
        as Hrun.
      unfold wp in Hrun. cbv zeta in Hrun.
      destruct Hrun as (Ho & _ & _ & _ & Hcr & Hcur & Harr & _).
      destruct (Store.startCheck check_reply url (Some options) w) as [o w1].
      cbn [fst snd] in *. subst o. cbn [snd].
      apply (well_kept_new_result w
               (with_issues data (fresh (dom (arrays (heap w))))));
        try assumption.
      * apply is_fresh.
      * rewrite Harr. apply dom_insert_L.
    + pose proof (startCheck_thrown check_reply url (Some options) w e Hreply) as Hrun.
      unfold wp in Hrun.
      destruct Hrun as (Ho & _ & _ & _ & Hcr & Hcur & Harr & _).
      destruct (Store.startCheck check_reply url (Some options) w) as [o w1].
      cbn [fst snd] in *. subst o. cbn [snd].
      destruct Hw as (Hlen & Halloc & Hnodup & Hcurw).
      unfold well_kept, console_error. cbn [snd store heap].
      rewrite Hcr, Hcur, Harr. by split_and!.
  - (* opening a listed result *)
    destruct Hw as (Hlen & Halloc & Hnodup & Hcur).
    unfold well_kept, Checker.viewResult, mbind, M_bind, mret, M_ret, modify_store.
    cbn [snd store heap checkResults currentResult set_currentResult].
    split_and!; try assumption.
    intros r [= <-]. by apply subseteq_take in Hin.
  - pose proof (filteredIssues_frame v w) as [Hstore Hdom].
    by apply (well_kept_frame w).
  - pose proof (priorityIssues_frame v w) as [Hstore Hdom].
    by apply (well_kept_frame w).
  - destruct (report_exportResult_frame export_reply v format w) as [Hstore Hheap].
    apply (well_kept_frame w); [exact Hstore|by rewrite Hheap|exact Hw].
  - destruct t as [delay|delay]; [exact Hw|].
    destruct (fire_resets delay w) as (_ & _ & _ & Hcr & Hcur & Hheap).
    destruct Hw as (Hlen & Halloc & Hnodup & Hcurw).
    unfold well_kept. rewrite Hcr, Hcur, Hheap. by split_and!.
Qed.

Lemma reachable_inv (w : World) : reachable w → well_kept w.
Proof.
  unfold reachable. revert w. apply (rtc_ind_r well_kept empty_world).
  - unfold well_kept. cbn. split_and!; [lia| |constructor|discriminate].
    intros r Hr. inversion Hr.
  - intros w1 w2 _ Hstep IH. by apply (ui_step_well_kept w1).
Qed.

(** X19.  In every state the application can reach from the empty store
    (by submitting checks, opening listed results, rendering the report,
    exporting, and the timer running), the history holds at most ten
    results, each with its issues array in the heap, no two of them share
    an issues array, and the current result, if any, is one of the stored
    results. *)
Theorem reachable_well_kept (w : World) (Hreach : reachable w) :
  (length (checkResults (store w)) ≤ 10)%nat ∧
  (∀ r, r ∈ checkResults (store w) → issues r ∈ dom (arrays (heap w))) ∧
  NoDup (issues <$> checkResults (store w)) ∧
  (∀ r, currentResult (store w) = Some r → r ∈ checkResults (store w)).
Proof.
  change (well_kept w). unfold reachable in Hreach. revert w Hreach.
  apply (rtc_ind_r well_kept empty_world).
  - unfold well_kept. cbn. split_and!; [lia| |constructor|discriminate].
    intros r Hr. inversion Hr.
  - intros w1 w2 _ Hstep IH. by apply (ui_step_well_kept w1).
Qed.

Lemma reachable_well_kept_witness :
  (length (checkResults (store
     (Checker.handleSubmit succeeding_check "https://example.com" 1%positive
        empty_world).2)) ≤ 10)%nat.
Proof.
  refine (proj1 (reachable_well_kept _ _)).
  apply rtc_once. apply ui_submit.
Defined.

Lemma distinct_results_distinct_arrays (rs : list CheckResult) (r1 r2 : CheckResult) :
  NoDup (issues <$> rs) → r1 ∈ rs → r2 ∈ rs → r1 ≠ r2 → issues r1 ≠ issues r2.
Proof.
  intros Hnodup Hr1 Hr2 Hne Heq.
  apply list_elem_of_lookup_1 in Hr1 as [i Hi].
  apply list_elem_of_lookup_1 in Hr2 as [j Hj].
  assert (Hij : i = j).
  { apply (NoDup_lookup (issues <$> rs) i j (issues r1) Hnodup);
      rewrite list_lookup_fmap; [rewrite Hi|rewrite Hj]; cbn; congruence. }
  subst j. congruence.
Qed.

(** X20.  In a reachable state the in-place sort of [filteredIssues]
    touches the shown result only: every other stored result reads back
    exactly as before, whatever the filters. *)
Theorem filteredIssues_confined (v : Report.View) (w : World)
    (shown other : CheckResult)
    (Hreach : reachable w)
    (Hcur : (Report.currentResult v w).1 = Returned (Some shown))
    (Hshown : shown ∈ checkResults (store w))
    (Hother : other ∈ checkResults (store w))
    (Hne : other ≠ shown) :
  serialize (heap (Report.filteredIssues v w).2) other = serialize (heap w) other.
Proof.
  destruct (reachable_inv w Hreach) as (_ & Halloc & Hnodup & _).
  unfold serialize, read_array. f_equal. f_equal.
  destruct (truthy (Report.selectedSeverity v) || truthy (Report.selectedCategory v))
    eqn:Hfilter.
  - apply filteredIssues_filtered_keeps; [exact Hfilter|by apply Halloc].
  - apply orb_false_iff in Hfilter as [Hsev Hcat].
    apply truthy_false in Hsev, Hcat.
    rewrite (filteredIssues_unfiltered_sorts v w shown Hsev Hcat
               (currentResult_eq _ _ _ Hcur)).
    unfold write_array. cbn [snd heap arrays].
    apply lookup_insert_ne.
    apply not_eq_sym.
    by apply (distinct_results_distinct_arrays (checkResults (store w))).
Qed.

Lemma filteredIssues_confined_witness :
  serialize (heap (Report.filteredIssues unfiltered_view two_checks_world).2)
    (with_issues sample_json 1%positive)
  = serialize (heap two_checks_world) (with_issues sample_json 1%positive).
Proof.
  apply (filteredIssues_confined unfiltered_view two_checks_world
           (with_issues sample_json 2%positive) (with_issues sample_json 1%positive)).
  - unfold reachable, two_checks_world.
    eapply rtc_l; [apply ui_submit|]. apply rtc_once. apply ui_submit.
  - vm_compute. reflexivity.
  - apply list_elem_of_In. vm_compute. auto.
  - apply list_elem_of_In. vm_compute. auto.
  - discriminate.
Defined.
